(** * Verification of the Clover spec generator (umag/si)

    The program under study is [generateSiSpecs] and [generateSiSpecForService]
    (module siSpecs): a batch pipeline that turns raw cloud-resource schemas into
    package specifications, runs an ordered list of stages over the whole
    collection, reconciles schema identifiers against previously emitted
    specifications and writes one JSON document per specification.

    The two exported functions are embedded from their source.  The functions
    they import (the Spec Builder, the pipeline stages, the directory helper)
    live in modules of the repository that are not part of the sources at
    hand; they enter the development as the methods of the class
    [PipelineSteps], and the specification's description of some of them is
    modelled in the module [SpecModel]. *)

From stdpp Require Import gmap strings list fin_maps pretty.

Open Scope string_scope.
Open Scope list_scope.

Set Warnings "-register-all".
Set Default Proof Using "Type*".

(** ** Data model *)

(** A node of a typed property tree.  [KRef] is the reference marker that the
    Sub-Asset Extractor leaves in place of a promoted nested shape. *)
Inductive PropKind : Type :=
  | KString
  | KNumber
  | KBoolean
  | KObject (children : list (string * PropKind))
  | KArray (element : PropKind)
  | KMap (value : PropKind)
  | KRef (target : string).

Inductive Direction : Type := Input | Output.

Record SocketSpec : Type := mkSocket {
  socket_name : string;
  socket_type : PropKind;
  socket_direction : Direction
}.

Inductive FuncKind : Type := Action | Leaf | Management | Asset | Intrinsic.

Record FuncSpec : Type := mkFunc {
  func_name : string;
  func_kind : FuncKind;
  func_code : string;
  func_userAuthored : bool
}.

(** The unit of output.  [schemaId] is [None] until the Identity Reconciler has
    assigned or carried forward an identifier; [parent] is set only for
    sub-assets; [warnings] holds the derivation warnings attached to the
    specification. *)
Record PkgSpec : Type := mkPkgSpec {
  name : string;
  schemaId : option string;
  props : list (string * PropKind);
  sockets : list SocketSpec;
  funcs : list FuncSpec;
  parent : option string;
  warnings : list string
}.

Definition with_schemaId (i : option string) (s : PkgSpec) : PkgSpec :=
  mkPkgSpec (name s) i (props s) (sockets s) (funcs s)
            (parent s) (warnings s).

Definition with_props (ps : list (string * PropKind)) (s : PkgSpec) : PkgSpec :=
  mkPkgSpec (name s) (schemaId s) ps (sockets s) (funcs s)
            (parent s) (warnings s).

Definition with_sockets (ss : list SocketSpec) (s : PkgSpec) : PkgSpec :=
  mkPkgSpec (name s) (schemaId s) (props s) ss (funcs s)
            (parent s) (warnings s).

Definition with_funcs (fs : list FuncSpec) (s : PkgSpec) : PkgSpec :=
  mkPkgSpec (name s) (schemaId s) (props s) (sockets s) fs
            (parent s) (warnings s).

Definition with_warnings (ws : list string) (s : PkgSpec) : PkgSpec :=
  mkPkgSpec (name s) (schemaId s) (props s) (sockets s)
            (funcs s) (parent s) ws.

(** A raw schema property: scalar, object, array or map shaped, a reference to
    a named definition of the same schema (which is how a raw schema becomes
    self-referential), or a shape the translator does not know. *)
Inductive RawProp : Type :=
  | RString
  | RNumber
  | RBoolean
  | RObject (fields : list (string * RawProp))
  | RArray (items : RawProp)
  | RMap (values : RawProp)
  | RDefinition (definition : string)
  | RUnknown (shape : string).

Record RawSchema : Type := mkRawSchema {
  typeName : string;
  properties : list (string * RawProp);
  definitions : list (string * RawProp)
}.

(** The loaded database is a JavaScript object used as a map; [Object.values]
    lists its values in insertion order, so the order is kept. *)
Definition CfDatabase : Type := list (string * RawSchema).

Definition Object_values (db : CfDatabase) : list RawSchema := db.*2.

(** ** Effects: console, file system, exceptions *)

Definition Exn : Type := string.

Inductive Stage : Type :=
  | OutputSockets
  | DefaultPropsAndSockets
  | ActionFuncs
  | LeafFuncs
  | ManagementFuncs
  | SubAssets
  | IntrinsicFuncs
  | InputSockets
  | AssetFuncs
  | SchemaIds.

(** What a run does, in the order it does it. *)
Inductive Event : Type :=
  | Translates (typeName : string)
  | StageBegins (st : Stage) (input : list PkgSpec)
  | StageEnds (st : Stage) (output : list PkgSpec)
  | EmptiesDirectory (dir : string)
  | WritesFile (path : string) (text : string) (ok : bool).

(** The world a run acts on: the schema source and the prior specifications it
    reads, the files it writes, the console it prints to, the faults the disk
    will answer the coming writes with (one entry per write, [None] for a write
    that succeeds; every write succeeds once the list is used up), and the
    events so far. *)
Record World : Type := mkWorld {
  cfDb : CfDatabase;
  priorSpecs : gmap string PkgSpec;
  files : gmap string string;
  console : list string;
  faults : list (option Exn);
  trace : list Event
}.

(** A computation changes the world and returns a value or throws; what it did
    before it threw stays done. *)
Definition M (A : Type) : Type := World -> (Exn + A) * World.

#[global] Instance M_ret : MRet M := fun A a w => (inr a, w).

#[global] Instance M_bind : MBind M := fun A B f m w =>
  match m w with
  | (inl e, w') => (inl e, w')
  | (inr a, w') => f a w'
  end.

Definition throw {A : Type} (e : Exn) : M A := fun w => (inl e, w).

Definition try_catch {A : Type} (body : M A) (handler : Exn -> M A) : M A :=
  fun w =>
    match body w with
    | (inl e, w') => handler e w'
    | (inr a, w') => (inr a, w')
    end.

Definition liftE {A : Type} (r : Exn + A) : M A := fun w => (r, w).

Definition emit (ev : Event) : M unit := fun w =>
  (inr tt, mkWorld (cfDb w) (priorSpecs w) (files w) (console w) (faults w)
                   (trace w ++ [ev])).

Definition console_log (msg : string) : M unit := fun w =>
  (inr tt, mkWorld (cfDb w) (priorSpecs w) (files w) (console w ++ [msg])
                   (faults w) (trace w)).

(** Modelled from the spec: the Schema Loader (loadCfDatabase of cfDb.ts, not
    among the sources) produces the mapping from resource-type name to raw
    schema record; here it reads it off the world.  A loader that throws ends
    the run before anything else is done; the runs followed here are those
    whose loader has returned. *)
Definition loadCfDatabase : M CfDatabase := fun w => (inr (cfDb w), w).

(** Modelled from the spec: the prior-state input (getExistingSpecs of
    specUpdates.ts, not among the sources) is the mapping from spec name to
    previously emitted specification; here it reads it off the world, and as
    for the loader the runs followed are those in which it has returned. *)
Definition getExistingSpecs : M (gmap string PkgSpec) :=
  fun w => (inr (priorSpecs w), w).

(** A path lies in a directory when it starts with the directory's name and a
    slash.  Paths are compared as they are written: a segment such as [..] is
    not resolved. *)
Definition inDirectory (dir path : string) : bool :=
  String.prefix (dir +:+ "/") path.

(** Modelled from the spec: the output location is a flat namespace of
    documents keyed by spec name; emptyDirectory (util.ts, not among the
    sources) is taken to do what its name says: it removes every file of the
    directory and touches no other; the runs followed are those in which it
    returns. *)
Definition emptyDirectory (dir : string) : M unit := fun w =>
  (inr tt,
   mkWorld (cfDb w) (priorSpecs w)
           (filter (fun kv => inDirectory dir kv.1 = false) (files w))
           (console w) (faults w) (trace w ++ [EmptiesDirectory dir])).

(** [Deno.writeTextFile]: the disk answers with the next fault; a refused
    write changes no file. *)
Definition writeTextFile (path text : string) : M unit := fun w =>
  match faults w with
  | Some e :: rest =>
      (inl e, mkWorld (cfDb w) (priorSpecs w) (files w) (console w) rest
                      (trace w ++ [WritesFile path text false]))
  | None :: rest =>
      (inr tt, mkWorld (cfDb w) (priorSpecs w) (<[path := text]> (files w))
                       (console w) rest
                       (trace w ++ [WritesFile path text true]))
  | [] =>
      (inr tt, mkWorld (cfDb w) (priorSpecs w) (<[path := text]> (files w))
                       (console w) []
                       (trace w ++ [WritesFile path text true]))
  end.

(** ** The imported functions *)

(** The functions siSpecs imports from the rest of the repository.  The
    lookup of a service, the Spec Builder and the reconciler may throw; the
    nine stages before the reconciler are total functions on the collection,
    as their types and the specification have them, and so is
    [JSON.stringify]. *)
Class PipelineSteps : Type := {
  getServiceByName : CfDatabase -> string -> Exn + RawSchema;
  pkgSpecFromCf : RawSchema -> Exn + PkgSpec;
  generateOutputSocketsFromResourceProps : list PkgSpec -> list PkgSpec;
  addDefaultPropsAndSockets : list PkgSpec -> list PkgSpec;
  generateDefaultActionFuncs : list PkgSpec -> list PkgSpec;
  generateDefaultLeafFuncs : list PkgSpec -> list PkgSpec;
  generateDefaultManagementFuncs : list PkgSpec -> list PkgSpec;
  generateSubAssets : list PkgSpec -> list PkgSpec;
  generateIntrinsicFuncs : list PkgSpec -> list PkgSpec;
  createInputSocketsBasedOnOutputSockets : list PkgSpec -> list PkgSpec;
  generateAssetFuncs : list PkgSpec -> list PkgSpec;
  updateSchemaIdsForExistingSpecs :
    gmap string PkgSpec -> list PkgSpec -> Exn + list PkgSpec;
  JSON_stringify : PkgSpec -> string
}.

(** ** siSpecs *)

Definition SI_SPEC_DIR : string := "si-specs".

Definition specPath (specName : string) : string :=
  SI_SPEC_DIR +:+ "/" +:+ specName +:+ ".json".

Section SiSpecs.
Context `{PipelineSteps}.

(** The call of [pkgSpecFromCf], noted in the trace. *)
Definition translate (cfSchema : RawSchema) : M PkgSpec :=
  emit (Translates (typeName cfSchema));;
  liftE (pkgSpecFromCf cfSchema).

(** The call of a stage, [specs = f(specs)], noted in the trace when it begins
    and when it ends. *)
Definition runStage (st : Stage) (f : list PkgSpec -> list PkgSpec)
    (specs : list PkgSpec) : M (list PkgSpec) :=
  emit (StageBegins st specs);;
  emit (StageEnds st (f specs));;
  mret (f specs).

Definition runReconciler (existing_specs : gmap string PkgSpec)
    (specs : list PkgSpec) : M (list PkgSpec) :=
  emit (StageBegins SchemaIds specs);;
  out ← liftE (updateSchemaIdsForExistingSpecs existing_specs specs);
  emit (StageEnds SchemaIds out);;
  mret out.

(** The call of [getServiceByName], which looks the service up in the loaded
    database. *)
Definition serviceByName (serviceName : string) : M RawSchema := fun w =>
  (getServiceByName (cfDb w) serviceName, w).

Definition generateSiSpecForService (serviceName : string) : M PkgSpec :=
  cf ← serviceByName serviceName;
  translate cf.

(** The first loop of [generateSiSpecs]. *)
Fixpoint buildSpecs (cfSchemas : list RawSchema) (specs : list PkgSpec)
    : M (list PkgSpec) :=
  match cfSchemas with
  | [] => mret specs
  | cfSchema :: rest =>
      specs' ← try_catch
                 (pkg ← translate cfSchema; mret (specs ++ [pkg]))
                 (fun e =>
                    console_log ("Error Building: " +:+ typeName cfSchema
                                 +:+ ": " +:+ e);;
                    mret specs);
      buildSpecs rest specs'
  end.

(** The second loop; [imported] counts the writes that went through.  The
    debug line of the logger goes to no state the claims speak about and is
    left out. *)
Fixpoint writeSpecs (specs : list PkgSpec) (imported : nat) : M nat :=
  match specs with
  | [] => mret imported
  | spec :: rest =>
      let specJson := JSON_stringify spec in
      let name := name spec in
      imported' ← try_catch
                    (writeTextFile (specPath name) specJson;;
                     mret (imported + 1))
                    (fun e =>
                       console_log ("Error writing to file: " +:+ name
                                    +:+ ": " +:+ e);;
                       mret imported);
      writeSpecs rest imported'
  end.

Definition generateSiSpecs : M unit :=
  db ← loadCfDatabase;
  existing_specs ← getExistingSpecs;
  let cfSchemas := Object_values db in
  specs ← buildSpecs cfSchemas [];
  specs ← runStage OutputSockets generateOutputSocketsFromResourceProps specs;
  specs ← runStage DefaultPropsAndSockets addDefaultPropsAndSockets specs;
  specs ← runStage ActionFuncs generateDefaultActionFuncs specs;
  specs ← runStage LeafFuncs generateDefaultLeafFuncs specs;
  specs ← runStage ManagementFuncs generateDefaultManagementFuncs specs;
  specs ← runStage SubAssets generateSubAssets specs;
  specs ← runStage IntrinsicFuncs generateIntrinsicFuncs specs;
  specs ← runStage InputSockets createInputSocketsBasedOnOutputSockets specs;
  specs ← runStage AssetFuncs generateAssetFuncs specs;
  specs ← runReconciler existing_specs specs;
  emptyDirectory SI_SPEC_DIR;;
  imported ← writeSpecs specs 0;
  console_log ("built " +:+ pretty imported +:+ " out of "
               +:+ pretty (length cfSchemas)).
End SiSpecs.

(** ** Equality of property shapes *)

Fixpoint PropKind_eqb (a b : PropKind) : bool :=
  match a, b with
  | KString, KString | KNumber, KNumber | KBoolean, KBoolean => true
  | KObject cs, KObject ds =>
      (fix fields (cs ds : list (string * PropKind)) : bool :=
         match cs, ds with
         | [], [] => true
         | (n, c) :: cs', (m, d) :: ds' =>
             bool_decide (n = m) && PropKind_eqb c d && fields cs' ds'
         | _, _ => false
         end) cs ds
  | KArray c, KArray d => PropKind_eqb c d
  | KMap c, KMap d => PropKind_eqb c d
  | KRef s, KRef t => bool_decide (s = t)
  | _, _ => false
  end.

Section PropKind_induction.
Variable P : PropKind -> Prop.
Hypothesis HString : P KString.
Hypothesis HNumber : P KNumber.
Hypothesis HBoolean : P KBoolean.
Hypothesis HObject : forall cs, Forall (fun p => P p.2) cs -> P (KObject cs).
Hypothesis HArray : forall e, P e -> P (KArray e).
Hypothesis HMap : forall v, P v -> P (KMap v).
Hypothesis HRef : forall t, P (KRef t).

Fixpoint PropKind_nested_ind (k : PropKind) : P k :=
  match k with
  | KString => HString
  | KNumber => HNumber
  | KBoolean => HBoolean
  | KObject cs =>
      HObject cs
        ((fix fields (l : list (string * PropKind))
            : Forall (fun p => P p.2) l :=
            match l with
            | [] => List.Forall_nil _
            | p :: l' =>
                List.Forall_cons _ p l' (PropKind_nested_ind p.2) (fields l')
            end) cs)
  | KArray e => HArray e (PropKind_nested_ind e)
  | KMap v => HMap v (PropKind_nested_ind v)
  | KRef t => HRef t
  end.
End PropKind_induction.

Lemma PropKind_eqb_eq (a b : PropKind) : PropKind_eqb a b = true <-> a = b.
Proof.
  revert b. induction a as [| | |cs IH|e IH|v IH|t] using PropKind_nested_ind;
    intros b; destruct b as [| | |ds|d|d|u]; simpl;
    try (split; [discriminate || reflexivity | discriminate || reflexivity]).
  - revert ds. induction IH as [|[n c] cs Hc _ IHcs]; intros [|[m d] ds];
      try (split; [discriminate || reflexivity | discriminate || reflexivity]).
    simpl in *. rewrite !andb_true_iff, bool_decide_eq_true, Hc, IHcs.
    split.
    + intros [[-> ->] [= ->]]. reflexivity.
    + intros [= -> -> ->]. auto.
  - rewrite IH. split; [intros ->; reflexivity | intros [= ->]; reflexivity].
  - rewrite IH. split; [intros ->; reflexivity | intros [= ->]; reflexivity].
  - rewrite bool_decide_eq_true.
    split; [intros ->; reflexivity | intros [= ->]; reflexivity].
Qed.

#[global] Instance PropKind_eq_dec : EqDecision PropKind.
Proof.
  intros a b. destruct (PropKind_eqb a b) eqn:E.
  - left. apply PropKind_eqb_eq, E.
  - right. intros Hab. apply PropKind_eqb_eq in Hab. congruence.
Defined.

#[global] Instance Direction_eq_dec : EqDecision Direction.
Proof. solve_decision. Defined.

#[global] Instance FuncKind_eq_dec : EqDecision FuncKind.
Proof. solve_decision. Defined.

#[global] Instance SocketSpec_eq_dec : EqDecision SocketSpec.
Proof. solve_decision. Defined.

(** ** The stages as the specification describes them *)

Module SpecModel.

(** What the specification leaves to configuration or to the implementer: the
    platform-standard properties, sockets and intrinsic functions, the
    complexity threshold (a test on the field count of a shape) and the
    structural hash of the Sub-Asset Extractor, the name normalisation of the
    Input-Socket Resolver, the fuzzy fallback and the minting of the Identity
    Reconciler, and the depth bound of the Spec Builder. *)
Class Policy : Type := {
  maxDepth : nat;
  standardProps : list (string * PropKind);
  standardSockets : list SocketSpec;
  intrinsicFuncs : list FuncSpec;
  promotable : nat -> bool;
  shapeHash : PropKind -> string;
  normalize : string -> string;
  fuzzyMatch : gmap string PkgSpec -> PkgSpec -> option PkgSpec;
  mintSchemaId : PkgSpec -> string
}.

(** Adding an entry to a collection keyed by [key]: an entry whose key is
    taken is not added again. *)
Definition addKeyed {A K : Type} `{EqDecision K} (key : A -> K)
    (entries : list A) (new : A) : list A :=
  if decide (key new ∈ key <$> entries) then entries else entries ++ [new].

Definition addAllKeyed {A K : Type} `{EqDecision K} (key : A -> K)
    (entries news : list A) : list A :=
  foldl (addKeyed key) entries news.

Definition socketKey (s : SocketSpec) : string * Direction :=
  (socket_name s, socket_direction s).

Definition fieldsOf (k : PropKind) : list (string * PropKind) :=
  match k with
  | KObject cs => cs
  | _ => []
  end.






Section Stages.
Context `{Policy}.

(** *** Spec Builder *)

Definition translationError (why : string) : Exn :=
  "SchemaTranslationError: " +:+ why.

(** Modelled from the spec: the recursive translation of a raw property of the
    Spec Builder (pkgSpecFromCf of specPipeline.ts, not among the sources):
    object to Object, array to Array(element), map to Map, scalars directly; an
    unrecognized shape fails and so does recursion beyond the bounded depth. *)
Fixpoint propFromCf (defs : list (string * RawProp)) (depth : nat)
    (r : RawProp) : Exn + PropKind :=
  match depth with
  | 0 => inl (translationError "nesting too deep")
  | S depth' =>
      match r with
      | RString => inr KString
      | RNumber => inr KNumber
      | RBoolean => inr KBoolean
      | RObject fields =>
          match
            foldr (fun f acc =>
                     match propFromCf defs depth' f.2, acc with
                     | inr k, inr ks => inr ((f.1, k) :: ks)
                     | inl e, _ => inl e
                     | _, inl e => inl e
                     end) (inr []) fields
          with
          | inr ks => inr (KObject ks)
          | inl e => inl e
          end
      | RArray items =>
          match propFromCf defs depth' items with
          | inr k => inr (KArray k)
          | inl e => inl e
          end
      | RMap values =>
          match propFromCf defs depth' values with
          | inr k => inr (KMap k)
          | inl e => inl e
          end
      | RDefinition d =>
          match List.find (fun p => bool_decide (p.1 = d)) defs with
          | Some p => propFromCf defs depth' p.2
          | None => inl (translationError ("unknown definition " +:+ d))
          end
      | RUnknown shape =>
          inl (translationError ("unrecognized shape " +:+ shape))
      end
  end.

(** Modelled from the spec: the Spec Builder (pkgSpecFromCf of
    specPipeline.ts, not among the sources): one draft per raw schema, with an
    empty socket set, no function, no identifier yet and the property tree
    built from the raw one. *)
Definition pkgSpecFromCf (cf : RawSchema) : Exn + PkgSpec :=
  match propFromCf (definitions cf) maxDepth (RObject (properties cf)) with
  | inr k => inr (mkPkgSpec (typeName cf) None (fieldsOf k) [] [] None [])
  | inl e => inl e
  end.

(** *** Default Augmenter *)

Definition augment (s : PkgSpec) : PkgSpec :=
  with_sockets (addAllKeyed socketKey (sockets s) standardSockets)
    (with_props (addAllKeyed fst (props s) standardProps) s).

(** Modelled from the spec: the Default Augmenter (addDefaultPropsAndSockets
    of pipeline-steps, not among the sources): every specification gets the
    fixed platform-standard properties and sockets, entries being keyed by
    name. *)
Definition addDefaultPropsAndSockets (specs : list PkgSpec) : list PkgSpec :=
  augment <$> specs.

(** *** Intrinsic Function Attacher *)

Definition attachIntrinsics (s : PkgSpec) : PkgSpec :=
  with_funcs (addAllKeyed func_name (funcs s) intrinsicFuncs) s.

(** Modelled from the spec: the Intrinsic Function Attacher
    (generateIntrinsicFuncs of pipeline-steps, not among the sources): the fixed
    intrinsic functions are attached to every specification of the collection,
    functions being keyed by name. *)
Definition generateIntrinsicFuncs (specs : list PkgSpec) : list PkgSpec :=
  attachIntrinsics <$> specs.

(** *** Sub-Asset Extractor *)

(** A shape qualifies for promotion when it is an object whose field count
    passes the threshold test. *)
Definition qualifies (k : PropKind) : bool :=
  match k with
  | KObject cs => promotable (length cs)
  | _ => false
  end.

(** A sub-asset is named by the structural hash of the shape it carries. *)
Definition subAssetName (shape : PropKind) : string := shapeHash shape.

(** The property tree with every qualifying shape at a site (the value of a
    property, the element of an array) replaced by a reference marker. *)
Fixpoint promote (k : PropKind) : PropKind :=
  match k with
  | KObject cs =>
      KObject
        (map (fun p =>
                (p.1, if qualifies p.2 then KRef (subAssetName p.2)
                      else promote p.2)) cs)
  | KArray e =>
      KArray (if qualifies e then KRef (subAssetName e) else promote e)
  | KMap v => KMap (promote v)
  | _ => k
  end.

(** The qualifying shapes at the sites of a tree, those inside a qualifying
    shape included, in the order they are met. *)
Fixpoint candidates (k : PropKind) : list PropKind :=
  match k with
  | KObject cs =>
      flat_map (fun p =>
                  (if qualifies p.2 then [p.2] else []) ++ candidates p.2) cs
  | KArray e => (if qualifies e then [e] else []) ++ candidates e
  | KMap v => candidates v
  | _ => []
  end.

Definition promoteSpec (s : PkgSpec) : PkgSpec :=
  with_props (fieldsOf (promote (KObject (props s)))) s.

(** The candidates of a specification, each with the name of the parent it
    was found in. *)
Definition foundIn (s : PkgSpec) : list (string * PropKind) :=
  pair (name s) <$> candidates (KObject (props s)).

(** Dedup by structural hash: of the candidates with one hash the first met
    is kept. *)
Fixpoint firstByHash (seen : list string) (found : list (string * PropKind))
    : list (string * PropKind) :=
  match found with
  | [] => []
  | c :: rest =>
      if decide (shapeHash c.2 ∈ seen) then firstByHash seen rest
      else c :: firstByHash (shapeHash c.2 :: seen) rest
  end.

(** The new specification of a candidate: it carries the nested structure
    (promoted in turn) and remembers its parent. *)
Definition subAssetOf (c : string * PropKind) : PkgSpec :=
  mkPkgSpec (subAssetName c.2) None (fieldsOf (promote c.2)) [] []
            (Some c.1) [].

Definition createdSubAssets (specs : list PkgSpec) : list PkgSpec :=
  subAssetOf <$> firstByHash [] (flat_map foundIn specs).

(** Modelled from the spec: the Sub-Asset Extractor (generateSubAssets of
    pipeline-steps, not among the sources): every nested Object shape, met as
    a property or as the element of an Array, whose field count passes the
    threshold becomes a specification of its own; the inline property is
    replaced by a reference marker naming it, the parent is recorded, and
    candidates are deduplicated by the structural hash of the shape. *)
Definition generateSubAssets (specs : list PkgSpec) : list PkgSpec :=
  (promoteSpec <$> specs) ++ createdSubAssets specs.



(** *** Input-Socket Resolver *)

Definition isOutput (s : SocketSpec) : bool :=
  bool_decide (socket_direction s = Output).

(** The global index: every output socket of the collection with the name of
    the specification that owns it. *)
Definition outputIndex (specs : list PkgSpec) : list (string * SocketSpec) :=
  flat_map (fun s => pair (name s) <$> List.filter isOutput (sockets s)) specs.

Definition isScalar (k : PropKind) : bool :=
  match k with
  | KString | KNumber | KBoolean => true
  | _ => false
  end.

(** The values a specification depends on: the scalar properties of its
    property tree, by name and type. *)
Definition needs (s : PkgSpec) : list (string * PropKind) :=
  List.filter (fun p => isScalar p.2) (props s).

(** An output socket qualifies for a need of the specification [owner] when
    another specification owns it and normalized name and type are equal. *)
Definition qualifiesFor (owner : string) (need : string * PropKind)
    (entry : string * SocketSpec) : bool :=
  bool_decide (entry.1 <> owner)
  && bool_decide (normalize (socket_name entry.2) = normalize need.1)
  && bool_decide (socket_type entry.2 = need.2).

Definition inputSocketFor (need : string * PropKind) : SocketSpec :=
  mkSocket need.1 need.2 Input.

Definition ambiguityWarning (need : string * PropKind) : string :=
  "ambiguous output socket match for " +:+ need.1.

Definition resolveNeed (index : list (string * SocketSpec)) (s : PkgSpec)
    (need : string * PropKind) : PkgSpec :=
  match List.filter (qualifiesFor (name s) need) index with
  | [] => s
  | [_] => with_sockets (addKeyed socketKey (sockets s) (inputSocketFor need)) s
  | _ :: _ :: _ => with_warnings (warnings s ++ [ambiguityWarning need]) s
  end.

Definition resolveSpec (index : list (string * SocketSpec)) (s : PkgSpec)
    : PkgSpec :=
  foldl (resolveNeed index) s (needs s).

(** Modelled from the spec: the Input-Socket Resolver
    (createInputSocketsBasedOnOutputSockets of pipeline-steps, not among the
    sources): a global index of the output sockets of the collection; for each
    need of a specification an input socket when exactly one output socket of
    another specification matches in normalized name and type, none when no
    socket matches, and none but a warning when several do. *)
Definition createInputSocketsBasedOnOutputSockets (specs : list PkgSpec)
    : list PkgSpec :=
  resolveSpec (outputIndex specs) <$> specs.

(** *** Identity Reconciler *)

(** The previous specification a new one is matched to: the exact match
    first (a specification has one name, which stands for type and variant,
    and the prior specifications are keyed by it), the fuzzy fallback
    otherwise. *)
Definition matchPrevious (existing : gmap string PkgSpec) (s : PkgSpec)
    : option PkgSpec :=
  match existing !! name s with
  | Some p => Some p
  | None => fuzzyMatch existing s
  end.

Definition sameFunc (f g : FuncSpec) : bool :=
  bool_decide (func_kind f = func_kind g)
  && bool_decide (func_name f = func_name g).

(** A user-authored function of the previous specification is kept over the
    freshly generated default of the same kind and name. *)
Definition keepUserAuthored (previous fresh : list FuncSpec) : list FuncSpec :=
  (fun f =>
     match List.find (fun g => func_userAuthored g && sameFunc f g) previous with
     | Some g => g
     | None => f
     end) <$> fresh.

Definition reconcile (existing : gmap string PkgSpec) (s : PkgSpec) : PkgSpec :=
  match matchPrevious existing s with
  | Some p =>
      with_funcs (keepUserAuthored (funcs p) (funcs s))
        (with_schemaId (schemaId p) s)
  | None => with_schemaId (Some (mintSchemaId s)) s
  end.

(** Two specifications of different names under one identifier. *)
Definition conflicting (a b : PkgSpec) : bool :=
  bool_decide (name a <> name b)
  && bool_decide (is_Some (schemaId a))
  && bool_decide (schemaId a = schemaId b).

Definition identityConflict (specs : list PkgSpec) : bool :=
  existsb (fun a => existsb (conflicting a) specs) specs.

(** Modelled from the spec: the Identity Reconciler
    (updateSchemaIdsForExistingSpecs of pipeline-steps, not among the sources):
    each new specification is matched to a previous one, exactly by name or
    else by the fuzzy fallback; on a match it inherits the previous schemaId
    and keeps the previous user-authored functions, otherwise an identifier is
    minted; one identifier for two distinct entities is a fatal conflict. *)
Definition updateSchemaIdsForExistingSpecs (existing : gmap string PkgSpec)
    (specs : list PkgSpec) : Exn + list PkgSpec :=
  let out := reconcile existing <$> specs in
  if identityConflict out then inl "IdentityConflict" else inr out.

End Stages.
End SpecModel.

(** ** A concrete configuration *)

(** The run of the specification's concrete scenario: the queue resource with
    its read-only [QueueArn] and its nested [RedrivePolicy], a topic resource
    with a redrive policy of the same shape, and a resource whose schema
    refers to itself. *)
Module Scenario.

(** A rendering of a shape that tells any two shapes apart; it serves as
    structural hash. *)
Fixpoint showKind (k : PropKind) : string :=
  match k with
  | KString => "string"
  | KNumber => "number"
  | KBoolean => "boolean"
  | KObject cs =>
      "{" +:+ (fix fields (l : list (string * PropKind)) : string :=
                 match l with
                 | [] => "}"
                 | p :: l' => p.1 +:+ ":" +:+ showKind p.2 +:+ ";" +:+ fields l'
                 end) cs
  | KArray e => "[" +:+ showKind e +:+ "]"
  | KMap v => "<" +:+ showKind v +:+ ">"
  | KRef t => "&" +:+ t
  end.

Definition showSocket (s : SocketSpec) : string :=
  match socket_direction s with
  | Input => "in "
  | Output => "out "
  end +:+ socket_name s +:+ ":" +:+ showKind (socket_type s).

Definition showList {A : Type} (f : A -> string) (l : list A) : string :=
  "[" +:+ foldr (fun a acc => f a +:+ "," +:+ acc) "]" l.

Definition showSpec (s : PkgSpec) : string :=
  "{name:" +:+ name s
  +:+ ",schemaId:" +:+ default "null" (schemaId s)
  +:+ ",props:" +:+ showKind (KObject (props s))
  +:+ ",sockets:" +:+ showList showSocket (sockets s)
  +:+ ",funcs:" +:+ showList func_name (funcs s)
  +:+ ",parent:" +:+ default "null" (parent s)
  +:+ ",warnings:" +:+ showList id (warnings s) +:+ "}".

#[global] Instance policy : SpecModel.Policy := {|
  SpecModel.maxDepth := 8;
  SpecModel.standardProps := [("extra", KMap KString)];
  SpecModel.standardSockets := [mkSocket "Credential" KString Input];
  SpecModel.intrinsicFuncs := [mkFunc "si:identity" Intrinsic "identity" false];
  SpecModel.promotable := fun fields => bool_decide (1 < fields);
  SpecModel.shapeHash := showKind;
  SpecModel.normalize := id;
  SpecModel.fuzzyMatch := fun _ _ => None;
  SpecModel.mintSchemaId := fun s => "minted:" +:+ name s
|}.

Definition serviceOf (db : CfDatabase) (serviceName : string)
    : Exn + RawSchema :=
  match List.find (fun p => bool_decide (p.1 = serviceName)) db with
  | Some p => inr p.2
  | None => inl ("ServiceMissing: " +:+ serviceName)
  end.

(** The stages the specification is modelled for, and the identity for the
    four others. *)
#[global] Instance steps : PipelineSteps := {|
  getServiceByName := serviceOf;
  pkgSpecFromCf := SpecModel.pkgSpecFromCf;
  generateOutputSocketsFromResourceProps := id;
  addDefaultPropsAndSockets := SpecModel.addDefaultPropsAndSockets;
  generateDefaultActionFuncs := id;
  generateDefaultLeafFuncs := id;
  generateDefaultManagementFuncs := id;
  generateSubAssets := SpecModel.generateSubAssets;
  generateIntrinsicFuncs := SpecModel.generateIntrinsicFuncs;
  createInputSocketsBasedOnOutputSockets :=
    SpecModel.createInputSocketsBasedOnOutputSockets;
  generateAssetFuncs := id;
  updateSchemaIdsForExistingSpecs :=
    SpecModel.updateSchemaIdsForExistingSpecs;
  JSON_stringify := showSpec
|}.

Definition redrivePolicy : RawProp :=
  RObject [("deadLetterTargetArn", RString); ("maxReceiveCount", RNumber)].

Definition queue : RawSchema :=
  mkRawSchema "Example::Queue::Resource"
    [("QueueArn", RString); ("RedrivePolicy", redrivePolicy)] [].

Definition topic : RawSchema :=
  mkRawSchema "Example::Topic::Resource"
    [("TopicName", RString); ("Retry", RArray redrivePolicy)] [].

Definition plain : RawSchema :=
  mkRawSchema "Example::Plain::Resource" [("Label", RString)] [].

(** A schema whose definition refers to itself: its translation exceeds the
    depth bound. *)
Definition broken : RawSchema :=
  mkRawSchema "Example::Broken::Resource"
    [("Tree", RDefinition "Node")]
    [("Node", RObject [("child", RDefinition "Node")])].

Definition label : RawSchema :=
  mkRawSchema "Example::Label::Resource" [("Text", RString)] [].

Definition database (schemas : list RawSchema) : CfDatabase :=
  (fun cf => (typeName cf, cf)) <$> schemas.

Definition queueBefore : PkgSpec :=
  mkPkgSpec "Example::Queue::Resource" (Some "01HQUEUE") [] [] [] None [].

Definition world (schemas : list RawSchema) (prior : gmap string PkgSpec)
    (old : gmap string string) (disk : list (option Exn)) : World :=
  mkWorld (database schemas) prior old [] disk [].

Definition queuePrior : gmap string PkgSpec :=
  {[ "Example::Queue::Resource" := queueBefore ]}.

Definition oldFiles : gmap string string :=
  {[ "si-specs/Example::Gone::Resource.json" := "{name:Example::Gone::Resource}";
     "notes/readme.txt" := "kept" ]}.

(** The drafts of the queue and of the topic, as the Spec Builder makes
    them. *)
Definition queueDraft : PkgSpec :=
  mkPkgSpec "Example::Queue::Resource" None
    [("QueueArn", KString);
     ("RedrivePolicy",
      KObject [("deadLetterTargetArn", KString); ("maxReceiveCount", KNumber)])]
    [] [] None [].

Definition topicDraft : PkgSpec :=
  mkPkgSpec "Example::Topic::Resource" None
    [("TopicName", KString);
     ("Retry",
      KArray (KObject [("deadLetterTargetArn", KString);
                       ("maxReceiveCount", KNumber)]))]
    [] [] None [].

Definition redriveShape : PropKind :=
  KObject [("deadLetterTargetArn", KString); ("maxReceiveCount", KNumber)].

(** A collection for the Input-Socket Resolver: two producers of an [Arn], one
    of a [QueueArn], and a consumer that needs both. *)
Definition producer (n : string) (outs : list string) : PkgSpec :=
  mkPkgSpec n None [] ((fun o => mkSocket o KString Output) <$> outs) []
            None [].

Definition consumer : PkgSpec :=
  mkPkgSpec "Example::Consumer::Resource" None
    [("QueueArn", KString); ("Arn", KString)] [] [] None [].

Definition wiring : list PkgSpec :=
  [ producer "Example::Queue::Resource" ["QueueArn"; "Arn"];
    producer "Example::Topic::Resource" ["Arn"];
    consumer ].

End Scenario.

(** ** What a run computes *)

(** The events and the console lines a computation adds to a world. *)
Definition translateEvent (cf : RawSchema) : Event :=
  Translates (typeName cf).

Definition eventsOf {A : Type} (m : M A) (w : World) : list Event :=
  drop (length (trace w)) (trace (m w).2).

Definition printedBy {A : Type} (m : M A) (w : World) : list string :=
  drop (length (console w)) (console (m w).2).

(** The documents a computation hands to the file system: path and text of
    each write, in order, whether or not the disk took it. *)
Definition documentOf (ev : Event) : option (string * string) :=
  match ev with
  | WritesFile path text _ => Some (path, text)
  | _ => None
  end.

Definition documents {A : Type} (m : M A) (w : World)
    : list (string * string) :=
  omap documentOf (eventsOf m w).

Definition isWrite (ev : Event) : bool :=
  match ev with
  | WritesFile _ _ _ => true
  | _ => false
  end.

Definition isStage (ev : Event) : bool :=
  match ev with
  | StageBegins _ _ | StageEnds _ _ => true
  | _ => false
  end.

(** The answer of the disk to the write number [i] of a run. *)
Definition diskAnswer (w : World) (i : nat) : option Exn :=
  mjoin (faults w !! i).

(** The files of a world that lie in a directory. *)
Definition directory (dir : string) (w : World) : gmap string string :=
  filter (fun kv => inDirectory dir kv.1 = true) (files w).

Section Run.
Context `{PipelineSteps}.

Definition translation (cf : RawSchema) : option PkgSpec :=
  match pkgSpecFromCf cf with
  | inr pkg => Some pkg
  | inl _ => None
  end.

Definition buildFailure (cf : RawSchema) : option string :=
  match pkgSpecFromCf cf with
  | inr _ => None
  | inl e => Some ("Error Building: " +:+ typeName cf +:+ ": " +:+ e)
  end.

(** The drafts of the schemas that translate, in the order of the schemas. *)
Definition drafts (cfSchemas : list RawSchema) : list PkgSpec :=
  omap translation cfSchemas.

Definition buildLog (cfSchemas : list RawSchema) : list string :=
  omap buildFailure cfSchemas.

Definition failedTranslations (cfSchemas : list RawSchema) : nat :=
  length (buildLog cfSchemas).

(** The collections between the stages. *)
Definition afterOutputSockets (d : list PkgSpec) : list PkgSpec :=
  generateOutputSocketsFromResourceProps d.
Definition afterDefaults (d : list PkgSpec) : list PkgSpec :=
  addDefaultPropsAndSockets (afterOutputSockets d).
Definition afterActionFuncs (d : list PkgSpec) : list PkgSpec :=
  generateDefaultActionFuncs (afterDefaults d).
Definition afterLeafFuncs (d : list PkgSpec) : list PkgSpec :=
  generateDefaultLeafFuncs (afterActionFuncs d).
Definition afterManagementFuncs (d : list PkgSpec) : list PkgSpec :=
  generateDefaultManagementFuncs (afterLeafFuncs d).
Definition afterSubAssets (d : list PkgSpec) : list PkgSpec :=
  generateSubAssets (afterManagementFuncs d).
Definition afterIntrinsicFuncs (d : list PkgSpec) : list PkgSpec :=
  generateIntrinsicFuncs (afterSubAssets d).
Definition afterInputSockets (d : list PkgSpec) : list PkgSpec :=
  createInputSocketsBasedOnOutputSockets (afterIntrinsicFuncs d).
Definition afterAssetFuncs (d : list PkgSpec) : list PkgSpec :=
  generateAssetFuncs (afterInputSockets d).

(** The finalized collection of a world, or the reconciler's exception. *)
Definition finalized (w : World) : Exn + list PkgSpec :=
  updateSchemaIdsForExistingSpecs (priorSpecs w)
    (afterAssetFuncs (drafts (Object_values (cfDb w)))).

(** The stage events of a run whose drafts are [d], up to the call of the
    reconciler. *)
Definition stageEvents (d : list PkgSpec) : list Event :=
  [ StageBegins OutputSockets d;
    StageEnds OutputSockets (afterOutputSockets d);
    StageBegins DefaultPropsAndSockets (afterOutputSockets d);
    StageEnds DefaultPropsAndSockets (afterDefaults d);
    StageBegins ActionFuncs (afterDefaults d);
    StageEnds ActionFuncs (afterActionFuncs d);
    StageBegins LeafFuncs (afterActionFuncs d);
    StageEnds LeafFuncs (afterLeafFuncs d);
    StageBegins ManagementFuncs (afterLeafFuncs d);
    StageEnds ManagementFuncs (afterManagementFuncs d);
    StageBegins SubAssets (afterManagementFuncs d);
    StageEnds SubAssets (afterSubAssets d);
    StageBegins IntrinsicFuncs (afterSubAssets d);
    StageEnds IntrinsicFuncs (afterIntrinsicFuncs d);
    StageBegins InputSockets (afterIntrinsicFuncs d);
    StageEnds InputSockets (afterInputSockets d);
    StageBegins AssetFuncs (afterInputSockets d);
    StageEnds AssetFuncs (afterAssetFuncs d);
    StageBegins SchemaIds (afterAssetFuncs d) ].

(** Each specification of the second loop with the answer of the disk to its
    write: [None] when the write went through. *)
Fixpoint outcomes (specs : list PkgSpec) (disk : list (option Exn))
    : list (PkgSpec * option Exn) :=
  match specs with
  | [] => []
  | spec :: rest => (spec, mjoin (head disk)) :: outcomes rest (tail disk)
  end.

Definition emitted (o : PkgSpec * option Exn) : bool :=
  match o.2 with
  | None => true
  | Some _ => false
  end.

Definition store (fs : gmap string string) (o : PkgSpec * option Exn)
    : gmap string string :=
  if emitted o then <[specPath (name o.1) := JSON_stringify o.1]> fs else fs.

Definition writeFailure (o : PkgSpec * option Exn) : option string :=
  (fun e => "Error writing to file: " +:+ name o.1 +:+ ": " +:+ e) <$> o.2.

Definition writeEvent (o : PkgSpec * option Exn) : Event :=
  WritesFile (specPath (name o.1)) (JSON_stringify o.1) (emitted o).

Definition summary (imported attempted : nat) : string :=
  "built " +:+ pretty imported +:+ " out of " +:+ pretty attempted.

(** The counts the last console line of a run reports. *)
Definition importedCount (w : World) : nat :=
  match finalized w with
  | inr specs => length (List.filter emitted (outcomes specs (faults w)))
  | inl _ => 0
  end.

Definition attemptedCount (w : World) : nat :=
  length (Object_values (cfDb w)).

End Run.

(** The world of the queue, the topic and the broken schema over a directory
    that holds an artifact of an earlier run, on a disk that refuses the
    second write. *)
Definition run1 : World :=
  Scenario.world [Scenario.queue; Scenario.topic; Scenario.broken]
    Scenario.queuePrior Scenario.oldFiles [None; Some "disk full"].

(** The finalized collection of a world under the steps of the scenario, and
    one of its specifications. *)
Definition finalOf (w : World) : list PkgSpec :=
  match finalized (H := Scenario.steps) w with
  | inr specs => specs
  | inl _ => []
  end.

Definition finalAt (w : World) (i : nat) : PkgSpec :=
  nth i (finalOf w) (mkPkgSpec "" None [] [] [] None []).

(** ** Further worlds of the scenario *)

(** Prior specifications that give the queue and the topic one identifier. *)
Definition clashingPrior : gmap string PkgSpec :=
  {[ "Example::Queue::Resource" :=
       mkPkgSpec "Example::Queue::Resource" (Some "01HSAME") [] [] [] None [];
     "Example::Topic::Resource" :=
       mkPkgSpec "Example::Topic::Resource" (Some "01HSAME") [] [] [] None [] ]}.

(** The queue and the topic over these prior specifications. *)
Definition run3 : World :=
  Scenario.world [Scenario.queue; Scenario.topic] clashingPrior
    Scenario.oldFiles [].

(** The plain and the label schema on a disk without faults. *)
Definition run4 : World :=
  Scenario.world [Scenario.plain; Scenario.label] ∅ Scenario.oldFiles [].

(** ** The workspaces store of the auth portal *)

(** A JavaScript object used as a map: its own properties in the order the
    language enumerates them, array indices first in ascending order, the
    other keys after them in the order they were created. *)
Module JsObject.

Definition t (V : Type) : Type := list (string * V).

Definition digit (c : Ascii.ascii) : option N :=
  let n := Ascii.N_of_ascii c in
  if (48 <=? n)%N && (n <=? 57)%N then Some (n - 48)%N else None.

Fixpoint parseDecimal (acc : N) (s : string) : option N :=
  match s with
  | EmptyString => Some acc
  | String c s' =>
      match digit c with
      | Some d => parseDecimal (10 * acc + d)%N s'
      | None => None
      end
  end.

(** A key is an array index when it is the canonical decimal numeral of a
    number below 2^32 - 1. *)
Definition arrayIndex (k : string) : option N :=
  match parseDecimal 0 k with
  | Some n =>
      if bool_decide (pretty n = k) && (n <? 4294967295)%N then Some n
      else None
  | None => None
  end.

Definition get {V : Type} (o : t V) (k : string) : option V :=
  snd <$> List.find (fun p => bool_decide (p.1 = k)) o.

Definition has {V : Type} (o : t V) (k : string) : bool :=
  bool_decide (k ∈ o.*1).

(** Assignment to a property the object has: the value changes, the place
    does not. *)
Definition replace {V : Type} (k : string) (v : V) (o : t V) : t V :=
  (fun p => if bool_decide (p.1 = k) then (k, v) else p) <$> o.

(** A new array index goes to its place among the array indices. *)
Fixpoint insertIndex {V : Type} (n : N) (k : string) (v : V) (o : t V)
    : t V :=
  match o with
  | [] => [(k, v)]
  | p :: rest =>
      match arrayIndex p.1 with
      | Some m =>
          if (n <? m)%N then (k, v) :: o else p :: insertIndex n k v rest
      | None => (k, v) :: o
      end
  end.

(** The assignment [o[k] = v]. *)
Definition set {V : Type} (k : string) (v : V) (o : t V) : t V :=
  if has o k then replace k v o
  else match arrayIndex k with
       | Some n => insertIndex n k v o
       | None => o ++ [(k, v)]
       end.

End JsObject.

(** The functions of lodash the store uses, on arrays and plain objects. *)
Module Lodash.

Definition values {V : Type} (o : JsObject.t V) : list V := o.*2.

(** [keyBy]: each element is assigned under its key, in the order of the
    collection. *)
Definition keyBy {V : Type} (collection : list V) (iteratee : V -> string)
    : JsObject.t V :=
  foldl (fun result value => JsObject.set (iteratee value) value result)
        [] collection.

Fixpoint insertBy {V : Type} (iteratee : V -> string) (x : V)
    (sorted : list V) : list V :=
  match sorted with
  | [] => [x]
  | y :: rest =>
      if String.leb (iteratee x) (iteratee y) then x :: sorted
      else y :: insertBy iteratee x rest
  end.

(** [sortBy] with a string criterion: ascending, and stable. *)
Definition sortBy {V : Type} (collection : list V) (iteratee : V -> string)
    : list V :=
  foldr (insertBy iteratee) [] collection.

End Lodash.

Module Store.

Definition WorkspaceId : Type := string.
Definition UserId : Type := string.

Inductive InstanceEnvType : Type := LOCAL | REMOTE | SI.

Record CreatorUser : Type := mkCreatorUser {
  firstName : option string;
  lastName : option string
}.

Record Workspace : Type := mkWorkspace {
  id : WorkspaceId;
  instanceEnvType : InstanceEnvType;
  instanceUrl : string;
  displayName : string;
  slug : string;
  creatorUserId : UserId;
  creatorUser : CreatorUser;
  createdAt : string;
  role : string;
  invitedAt : Z;
  isDefault : bool
}.

Record WorkspaceMember : Type := mkWorkspaceMember {
  userId : UserId;
  nickname : string;
  email : string;
  memberRole : string;
  signupAt : Z
}.

Record State : Type := mkState {
  workspacesById : JsObject.t Workspace;
  selectedWorkspaceMembersById : JsObject.t WorkspaceMember
}.

Definition state : State := mkState [] [].

(** *** Getters *)

Definition workspaces (state : State) : list Workspace :=
  Lodash.values (workspacesById state).

Definition selectedWorkspaceMembers (state : State) : list WorkspaceMember :=
  Lodash.values (selectedWorkspaceMembersById state).

(** [w.creatorUserId === authStore.user?.id], the user of the auth store
    being absent when nobody is logged in. *)
Definition createdBy (user : option UserId) (w : Workspace) : bool :=
  bool_decide (Some (creatorUserId w) = user).

Definition isProduction (w : Workspace) : bool :=
  match instanceEnvType w with
  | SI => true
  | _ => false
  end.

Definition defaultWorkspace (user : option UserId) (state : State)
    : option Workspace :=
  let defaultWorkspace :=
    head (List.filter (fun w => isDefault w && createdBy user w)
                      (Lodash.values (workspacesById state))) in
  match defaultWorkspace with
  | Some w => Some w
  | None =>
      let firstProductionWorkspace :=
        head (Lodash.sortBy
                (List.filter (fun w => createdBy user w && isProduction w)
                             (Lodash.values (workspacesById state)))
                createdAt) in
      match firstProductionWorkspace with
      | Some w => Some w
      | None => None
      end
  end.

(** *** Actions: what each does to the store when its request succeeds *)

Definition LOAD_WORKSPACES_onSuccess (response : list Workspace)
    (this : State) : State :=
  mkState (Lodash.keyBy response id) (selectedWorkspaceMembersById this).

Definition LOAD_WORKSPACE_MEMBERS_onSuccess (response : list WorkspaceMember)
    (this : State) : State :=
  mkState (workspacesById this) (Lodash.keyBy response userId).

Definition CREATE_WORKSPACE_onSuccess
    (response : list Workspace * string) (this : State) : State :=
  mkState (Lodash.keyBy response.1 id) (selectedWorkspaceMembersById this).

Definition DELETE_WORKSPACE_onSuccess {R : Type} (response : R)
    (this : State) : State :=
  this.

Definition EDIT_WORKSPACE_onSuccess (response : list Workspace)
    (this : State) : State :=
  mkState (Lodash.keyBy response id) (selectedWorkspaceMembersById this).

Definition REMOVE_USER_onSuccess (response : list WorkspaceMember)
    (this : State) : State :=
  mkState (workspacesById this) (Lodash.keyBy response userId).

End Store.

(** A response of the workspaces endpoint: two production workspaces and a
    local one of one user, a production workspace of another user, and a
    workspace whose id is a number. *)
Module Portal.
Import Store.

Definition ada : UserId := "01HUSERADA".
Definition bob : UserId := "01HUSERBOB".

Definition workspace (i : WorkspaceId) (env : InstanceEnvType)
    (creator : UserId) (created : string) (flagged : bool) : Workspace :=
  mkWorkspace i env "https://app.example" i i creator
              (mkCreatorUser None None) created "OWNER" 0 flagged.

Definition response : list Workspace :=
  [ workspace "01HWSLATE" SI ada "2024-03-01T10:00:00Z" false;
    workspace "01HWSLOCAL" LOCAL ada "2022-01-01T10:00:00Z" false;
    workspace "01HWSEARLY" SI ada "2023-11-20T08:30:00Z" false;
    workspace "01HWSBOB" SI bob "2021-06-01T00:00:00Z" true ].

Definition numbered : list Workspace :=
  [ workspace "01HWSLATE" SI ada "2024-03-01T10:00:00Z" false;
    workspace "12" SI ada "2024-04-01T10:00:00Z" false;
    workspace "7" SI ada "2024-05-01T10:00:00Z" false ].

Definition loaded : State := LOAD_WORKSPACES_onSuccess response state.

End Portal.

(** ** Removing from an edit field *)

Module EditField.

(** The types [removeFromEditField] imports: the kinds of edit-field objects
    with the two the function names, the attribute context, the visibility,
    and the workspace with its id. *)
Class Api : Type := {
  EditFieldObjectKind : Type;
  Component : EditFieldObjectKind;
  ComponentProp : EditFieldObjectKind;
  EditFieldObjectKind_eq_dec :: EqDecision EditFieldObjectKind;
  AttributeContext : Type;
  Unknown : Type;
  Visibility : Type;
  Workspace : Type;
  workspace_id : Workspace -> Z
}.

Section Requests.
Context `{Api}.

Record RemoveFromEditFieldArgs : Type := mkArgs {
  objectKind : EditFieldObjectKind;
  objectId : Z;
  editFieldId : string;
  attributeContext : AttributeContext;
  baggage : option Unknown
}.

(** The request: the fields of the arguments, the fields of the visibility,
    and the workspace id when there is one. *)
Record RemoveFromEditFieldRequest : Type := mkRequest {
  request_args : RemoveFromEditFieldArgs;
  request_visibility : Visibility;
  workspaceId : option Z
}.

Record RemoveFromEditFieldResponse : Type := mkResponse {
  success : bool
}.

Record ApiError : Type := mkApiError {
  statusCode : Z;
  message : string;
  code : Z
}.

Inductive ApiResponse : Type :=
  | Answer (response : RemoveFromEditFieldResponse)
  | Failure (error : ApiError).

(** What a subscription sees of [visibility$] and [workspace$], in the order
    it comes; [workspace$] emits a workspace or null. *)
Inductive Emission : Type :=
  | FromVisibility (visibility : Visibility)
  | FromWorkspace (workspace : option Workspace).

(** [combineLatest([visibility$, workspace$]).pipe(take(1))]: the pair of the
    latest values at the first moment both streams have emitted. *)
Fixpoint firstCombined (visibility : option Visibility)
    (workspace : option (option Workspace)) (emissions : list Emission)
    : option (Visibility * option Workspace) :=
  match emissions with
  | [] => None
  | FromVisibility v :: rest =>
      match workspace with
      | Some w => Some (v, w)
      | None => firstCombined (Some v) workspace rest
      end
  | FromWorkspace w :: rest =>
      match visibility with
      | Some v => Some (v, w)
      | None => firstCombined visibility (Some w) rest
      end
  end.

(** What a subscription brings about: the responses it is handed, the
    requests posted, and the values pushed to [editSessionWritten$]. *)
Record Effects : Type := mkEffects {
  emitted : list ApiResponse;
  posted : list (string * RemoveFromEditFieldRequest);
  editSessionWritten : list bool
}.

Definition nothing : Effects := mkEffects [] [] [].

(** [sdf.post(url, request).pipe(tap(...))], the server answering the post
    with the responses [sdf_post url request]. *)
Definition postAndTap
    (sdf_post : string -> RemoveFromEditFieldRequest -> list ApiResponse)
    (url : string) (request : RemoveFromEditFieldRequest) : Effects :=
  mkEffects (sdf_post url request) [(url, request)]
            ((fun _response => true) <$> sdf_post url request).

Definition noWorkspace : ApiError :=
  mkApiError 10 "cannot make call without a workspace; bug!" 10.

(** The function given to [switchMap]. *)
Definition project
    (sdf_post : string -> RemoveFromEditFieldRequest -> list ApiResponse)
    (args : RemoveFromEditFieldArgs)
    (latest : Visibility * option Workspace) : Effects :=
  let visibility := latest.1 in
  let workspace := latest.2 in
  if bool_decide (objectKind args = Component)
     || bool_decide (objectKind args = ComponentProp)
  then
    match workspace with
    | None => mkEffects [Failure noWorkspace] [] []
    | Some workspace =>
        postAndTap sdf_post "edit_field/remove_from_edit_field"
          (mkRequest args visibility (Some (workspace_id workspace)))
    end
  else
    postAndTap sdf_post "edit_field/remove_from_edit_field"
      (mkRequest args visibility None).

(** One subscription to the observable [removeFromEditField(args)]. *)
Definition removeFromEditField
    (sdf_post : string -> RemoveFromEditFieldRequest -> list ApiResponse)
    (args : RemoveFromEditFieldArgs) (emissions : list Emission) : Effects :=
  match firstCombined None None emissions with
  | Some latest => project sdf_post args latest
  | None => nothing
  end.

End Requests.

(** An instance: three kinds of objects, the change set as visibility, the
    workspace as its id. *)
Inductive Kind : Type := KComponent | KComponentProp | KSchema.

#[global] Instance Kind_eq_dec : EqDecision Kind.
Proof. solve_decision. Defined.

#[global] Instance api : Api := {|
  EditFieldObjectKind := Kind;
  Component := KComponent;
  ComponentProp := KComponentProp;
  AttributeContext := string;
  Unknown := string;
  Visibility := Z;
  Workspace := Z;
  workspace_id := fun w => w
|}.

Definition removeProp : RemoveFromEditFieldArgs :=
  mkArgs KComponentProp 42 "domain.image" "attribute-context" None.

Definition removeSchema : RemoveFromEditFieldArgs :=
  mkArgs KSchema 7 "name" "attribute-context" None.

Definition server (url : string) (request : RemoveFromEditFieldRequest)
    : list ApiResponse :=
  [Answer (mkResponse true)].

End EditField.

(** * Properties *)

(** ** The two loops and the whole run, as equations *)

Ltac unfold_M :=
  unfold mbind, M_bind, mret, M_ret, try_catch, throw, liftE, emit,
    console_log, loadCfDatabase, getExistingSpecs, emptyDirectory in *.

Section Semantics.
Context `{PipelineSteps}.

Lemma drafts_cons cf cfs :
  drafts (cf :: cfs) =
  match pkgSpecFromCf cf with
  | inr pkg => pkg :: drafts cfs
  | inl _ => drafts cfs
  end.
Proof. unfold drafts, translation. simpl. destruct (pkgSpecFromCf cf); done. Qed.

Lemma buildLog_cons cf cfs :
  buildLog (cf :: cfs) =
  match pkgSpecFromCf cf with
  | inr _ => buildLog cfs
  | inl e =>
      ("Error Building: " +:+ typeName cf +:+ ": " +:+ e) :: buildLog cfs
  end.
Proof.
  unfold buildLog, buildFailure. simpl. destruct (pkgSpecFromCf cf); done.
Qed.

Lemma buildSpecs_run cfs : forall specs w,
  buildSpecs cfs specs w =
  (inr (specs ++ drafts cfs),
   mkWorld (cfDb w) (priorSpecs w) (files w) (console w ++ buildLog cfs)
           (faults w) (trace w ++ (translateEvent <$> cfs))).
Proof.
  induction cfs as [|cf cfs IH]; intros specs w.
  - simpl. unfold_M. rewrite !app_nil_r. by destruct w.
  - rewrite drafts_cons, buildLog_cons. simpl. unfold translate. unfold_M.
    simpl. destruct (pkgSpecFromCf cf) as [e|pkg]; simpl; rewrite IH; simpl;
      rewrite <- ?app_assoc; reflexivity.
Qed.

Lemma writeTextFile_run path text w :
  writeTextFile path text w =
  (match mjoin (head (faults w)) with
   | Some e => inl e
   | None => inr tt
   end,
   mkWorld (cfDb w) (priorSpecs w)
           (match mjoin (head (faults w)) with
            | Some _ => files w
            | None => <[path := text]> (files w)
            end)
           (console w) (tail (faults w))
           (trace w ++ [WritesFile path text
                          (match mjoin (head (faults w)) with
                           | Some _ => false
                           | None => true
                           end)])).
Proof. unfold writeTextFile. destruct (faults w) as [|[e|] rest]; done. Qed.

Lemma writeSpecs_run specs : forall imported w,
  writeSpecs specs imported w =
  (inr (imported + length (List.filter emitted (outcomes specs (faults w)))),
   mkWorld (cfDb w) (priorSpecs w)
           (foldl store (files w) (outcomes specs (faults w)))
           (console w ++ omap writeFailure (outcomes specs (faults w)))
           (drop (length specs) (faults w))
           (trace w ++ (writeEvent <$> outcomes specs (faults w)))).
Proof.
  induction specs as [|spec specs IH]; intros imported w.
  - simpl. unfold_M. rewrite !app_nil_r, Nat.add_0_r, drop_0. by destruct w.
  - simpl. unfold_M. rewrite writeTextFile_run. simpl.
    assert (Hdrop : drop (length specs) (tail (faults w)) =
                    drop (S (length specs)) (faults w))
      by (destruct (faults w); simpl; [by rewrite drop_nil | done]).
    destruct (mjoin (head (faults w))) as [e|] eqn:E; simpl; rewrite IH; simpl;
      rewrite <- ?app_assoc; rewrite Hdrop; simpl.
    + reflexivity.
    + replace (imported + 1 +
               length (List.filter emitted (outcomes specs (tail (faults w)))))
        with (imported +
              S (length (List.filter emitted
                           (outcomes specs (tail (faults w)))))) by lia.
      reflexivity.
Qed.

Lemma bind_run {A B : Type} (m : M A) (f : A -> M B) (w : World) :
  (m ≫= f) w =
  match m w with
  | (inl e, w') => (inl e, w')
  | (inr a, w') => f a w'
  end.
Proof. reflexivity. Qed.

Lemma runStage_run st f specs w :
  runStage st f specs w =
  (inr (f specs),
   mkWorld (cfDb w) (priorSpecs w) (files w) (console w) (faults w)
           (trace w ++ [StageBegins st specs; StageEnds st (f specs)])).
Proof.
  unfold runStage. unfold_M. cbn. by rewrite <- app_assoc.
Qed.

Lemma runReconciler_run existing specs w :
  runReconciler existing specs w =
  match updateSchemaIdsForExistingSpecs existing specs with
  | inl e =>
      (inl e,
       mkWorld (cfDb w) (priorSpecs w) (files w) (console w) (faults w)
               (trace w ++ [StageBegins SchemaIds specs]))
  | inr out =>
      (inr out,
       mkWorld (cfDb w) (priorSpecs w) (files w) (console w) (faults w)
               (trace w ++ [StageBegins SchemaIds specs;
                            StageEnds SchemaIds out]))
  end.
Proof.
  unfold runReconciler. unfold_M. cbn.
  destruct (updateSchemaIdsForExistingSpecs existing specs); cbn;
    by rewrite <- ?app_assoc.
Qed.

(** The whole run: the reconciler's exception ends it before any file is
    touched; otherwise the directory is emptied, the finalized collection is
    written and the summary printed. *)
Lemma generateSiSpecs_run w :
  generateSiSpecs w =
  match finalized w with
  | inl e =>
      (inl e,
       mkWorld (cfDb w) (priorSpecs w) (files w)
         (console w ++ buildLog (Object_values (cfDb w)))
         (faults w)
         (trace w ++ (translateEvent <$> Object_values (cfDb w))
          ++ stageEvents (drafts (Object_values (cfDb w)))))
  | inr specs =>
      (inr tt,
       mkWorld (cfDb w) (priorSpecs w)
         (foldl store
            (filter (fun kv => inDirectory SI_SPEC_DIR kv.1 = false) (files w))
            (outcomes specs (faults w)))
         (console w ++ buildLog (Object_values (cfDb w))
          ++ omap writeFailure (outcomes specs (faults w))
          ++ [summary (length (List.filter emitted (outcomes specs (faults w))))
                      (length (Object_values (cfDb w)))])
         (drop (length specs) (faults w))
         (trace w ++ (translateEvent <$> Object_values (cfDb w))
          ++ stageEvents (drafts (Object_values (cfDb w)))
          ++ [StageEnds SchemaIds specs; EmptiesDirectory SI_SPEC_DIR]
          ++ (writeEvent <$> outcomes specs (faults w))))
  end.
Proof.
  unfold generateSiSpecs, finalized.
  rewrite bind_run; unfold loadCfDatabase at 1; cbv beta iota.
  rewrite bind_run; unfold getExistingSpecs at 1; cbv beta iota.
  rewrite bind_run, buildSpecs_run; cbv beta iota.
  rewrite app_nil_l.
  do 9 (rewrite bind_run, runStage_run; cbv beta iota;
        cbn [cfDb priorSpecs files console faults trace]).
  rewrite bind_run, runReconciler_run.
  cbn [cfDb priorSpecs files console faults trace].
  fold (afterOutputSockets (drafts (Object_values (cfDb w)))).
  fold (afterDefaults (drafts (Object_values (cfDb w)))).
  fold (afterActionFuncs (drafts (Object_values (cfDb w)))).
  fold (afterLeafFuncs (drafts (Object_values (cfDb w)))).
  fold (afterManagementFuncs (drafts (Object_values (cfDb w)))).
  fold (afterSubAssets (drafts (Object_values (cfDb w)))).
  fold (afterIntrinsicFuncs (drafts (Object_values (cfDb w)))).
  fold (afterInputSockets (drafts (Object_values (cfDb w)))).
  fold (afterAssetFuncs (drafts (Object_values (cfDb w)))).
  destruct (updateSchemaIdsForExistingSpecs _ _) as [e|specs].
  - unfold stageEvents. rewrite <- !app_assoc. reflexivity.
  - rewrite bind_run. unfold emptyDirectory at 1. cbv beta iota.
    cbn [cfDb priorSpecs files console faults trace].
    rewrite bind_run, writeSpecs_run. cbv beta iota.
    unfold console_log.
    cbn [cfDb priorSpecs files console faults trace].
    unfold stageEvents, summary. rewrite Nat.add_0_l.
    rewrite <- !app_assoc. reflexivity.
Qed.

Lemma eventsOf_generateSiSpecs w :
  eventsOf generateSiSpecs w =
  (translateEvent <$> Object_values (cfDb w))
  ++ stageEvents (drafts (Object_values (cfDb w)))
  ++ match finalized w with
     | inl _ => []
     | inr specs =>
         [StageEnds SchemaIds specs; EmptiesDirectory SI_SPEC_DIR]
         ++ (writeEvent <$> outcomes specs (faults w))
     end.
Proof.
  unfold eventsOf. rewrite generateSiSpecs_run.
  destruct (finalized w) as [e|specs]; cbn [snd trace];
    rewrite drop_app_length; by rewrite ?app_nil_r.
Qed.

Lemma printedBy_generateSiSpecs w :
  printedBy generateSiSpecs w =
  buildLog (Object_values (cfDb w))
  ++ match finalized w with
     | inl _ => []
     | inr specs =>
         omap writeFailure (outcomes specs (faults w))
         ++ [summary (length (List.filter emitted (outcomes specs (faults w))))
                     (length (Object_values (cfDb w)))]
     end.
Proof.
  unfold printedBy. rewrite generateSiSpecs_run.
  destruct (finalized w) as [e|specs]; cbn [snd console];
    rewrite drop_app_length; by rewrite ?app_nil_r.
Qed.

Lemma result_generateSiSpecs w :
  (generateSiSpecs w).1 =
  match finalized w with
  | inl e => inl e
  | inr _ => inr tt
  end.
Proof. rewrite generateSiSpecs_run. by destruct (finalized w). Qed.

Lemma outcomes_lookup specs : forall disk i,
  outcomes specs disk !! i = (fun s => (s, mjoin (disk !! i))) <$> specs !! i.
Proof.
  induction specs as [|s specs IH]; intros disk i; [done|].
  destruct i as [|i]; simpl.
  - by destruct disk.
  - rewrite IH. by destruct disk.
Qed.

Lemma outcomes_length specs disk : length (outcomes specs disk) = length specs.
Proof. revert disk. induction specs; intros; simpl; auto. Qed.

End Semantics.

(** ** The pipeline of [generateSiSpecs] *)

Section Pipeline.
Context `{PipelineSteps}.

(** C2: the events of every run are the translations of the schemas, then
    the stages in the order output sockets, default props and sockets, action,
    leaf and management functions, sub-assets, intrinsic functions, input
    sockets, asset functions, and the reconciler last, each stage ending on
    the whole collection before the next begins on that very collection, and
    only then the emptying of the directory and the writes; in particular
    every specification that leaves the Sub-Asset stage, the sub-assets
    created in the run included, enters the Intrinsic stage. *)
Theorem stages_run_in_order (w : World) :
  let d := drafts (Object_values (cfDb w)) in
  let s1 := generateOutputSocketsFromResourceProps d in
  let s2 := addDefaultPropsAndSockets s1 in
  let s3 := generateDefaultActionFuncs s2 in
  let s4 := generateDefaultLeafFuncs s3 in
  let s5 := generateDefaultManagementFuncs s4 in
  let s6 := generateSubAssets s5 in
  let s7 := generateIntrinsicFuncs s6 in
  let s8 := createInputSocketsBasedOnOutputSockets s7 in
  let s9 := generateAssetFuncs s8 in
  eventsOf generateSiSpecs w =
    (translateEvent <$> Object_values (cfDb w))
    ++ [ StageBegins OutputSockets d; StageEnds OutputSockets s1;
         StageBegins DefaultPropsAndSockets s1;
         StageEnds DefaultPropsAndSockets s2;
         StageBegins ActionFuncs s2; StageEnds ActionFuncs s3;
         StageBegins LeafFuncs s3; StageEnds LeafFuncs s4;
         StageBegins ManagementFuncs s4; StageEnds ManagementFuncs s5;
         StageBegins SubAssets s5; StageEnds SubAssets s6;
         StageBegins IntrinsicFuncs s6; StageEnds IntrinsicFuncs s7;
         StageBegins InputSockets s7; StageEnds InputSockets s8;
         StageBegins AssetFuncs s8; StageEnds AssetFuncs s9;
         StageBegins SchemaIds s9 ]
    ++ match updateSchemaIdsForExistingSpecs (priorSpecs w) s9 with
       | inl _ => []
       | inr final =>
           StageEnds SchemaIds final :: EmptiesDirectory SI_SPEC_DIR
           :: (writeEvent <$> outcomes final (faults w))
       end
  /\ (forall spec, spec ∈ s6 ->
        exists input,
          StageBegins IntrinsicFuncs input ∈ eventsOf generateSiSpecs w
          /\ StageEnds IntrinsicFuncs (generateIntrinsicFuncs input)
             ∈ eventsOf generateSiSpecs w
          /\ spec ∈ input).
Proof.
  intros d s1 s2 s3 s4 s5 s6 s7 s8 s9.
  assert (Hev : eventsOf generateSiSpecs w =
                (translateEvent <$> Object_values (cfDb w))
                ++ stageEvents d
                ++ match updateSchemaIdsForExistingSpecs (priorSpecs w) s9 with
                   | inl _ => []
                   | inr final =>
                       StageEnds SchemaIds final :: EmptiesDirectory SI_SPEC_DIR
                       :: (writeEvent <$> outcomes final (faults w))
                   end).
  { rewrite eventsOf_generateSiSpecs. unfold finalized.
    fold d. by destruct (updateSchemaIdsForExistingSpecs _ _). }
  split; [exact Hev|].
  intros spec Hspec. exists s6. rewrite Hev.
  split; [|split; [|exact Hspec]].
  - apply elem_of_app. right. apply elem_of_app. left.
    unfold stageEvents. rewrite !elem_of_cons. tauto.
  - apply elem_of_app. right. apply elem_of_app. left.
    unfold stageEvents. rewrite !elem_of_cons. tauto.
Qed.

End Pipeline.

(** ** The output directory *)

Section Directory.
Context `{PipelineSteps}.

Lemma length_append (a b : string) :
  String.length (a +:+ b) = String.length a + String.length b.
Proof. induction a as [|c a IH]; simpl; [done|]. by rewrite IH. Qed.

Lemma append_inj_r (t a b : string) : a +:+ t = b +:+ t -> a = b.
Proof.
  revert b. induction a as [|c a IH]; intros [|d b] Heq; simpl in *.
  - done.
  - apply (f_equal String.length) in Heq.
    rewrite !length_append in Heq. simpl in Heq. lia.
  - apply (f_equal String.length) in Heq.
    rewrite !length_append in Heq. simpl in Heq. lia.
  - change (String c (a +:+ t) = String d (b +:+ t)) in Heq.
    injection Heq as -> Heq. f_equal. by apply IH.
Qed.

Lemma specPath_inj (a b : string) : specPath a = specPath b -> a = b.
Proof.
  unfold specPath. intros Heq.
  apply (inj (String.append _)) in Heq.
  apply (inj (String.append _)) in Heq.
  by apply append_inj_r in Heq.
Qed.

Lemma prefix_empty s : String.prefix "" s = true.
Proof. by destruct s. Qed.

Lemma specPath_inDirectory n : inDirectory SI_SPEC_DIR (specPath n) = true.
Proof. exact (prefix_empty (n +:+ ".json")). Qed.

Lemma store_lookup_Some outs : forall fs p t,
  foldl store fs outs !! p = Some t ->
  fs !! p = Some t
  \/ exists o, o ∈ outs /\ emitted o = true /\ specPath (name o.1) = p
               /\ t = JSON_stringify o.1.
Proof.
  induction outs as [|o outs IH]; intros fs p t Hp; simpl in Hp; [by left|].
  apply IH in Hp as [Hp|(o' & Ho' & Hrest)].
  - unfold store in Hp. destruct (emitted o) eqn:Eo; [|by left].
    destruct (decide (specPath (name o.1) = p)) as [<-|Hne].
    + rewrite lookup_insert_eq in Hp. injection Hp as <-.
      right. exists o. split; [apply list_elem_of_here|done].
    + rewrite lookup_insert_ne in Hp by done. by left.
  - right. exists o'. split; [by apply list_elem_of_further|done].
Qed.

Lemma store_lookup_is_Some outs : forall fs p,
  is_Some (foldl store fs outs !! p) <->
  is_Some (fs !! p)
  \/ exists o, o ∈ outs /\ emitted o = true /\ specPath (name o.1) = p.
Proof.
  induction outs as [|o outs IH]; intros fs p; simpl.
  - split; [by left|]. intros [?|(o & Ho & _)]; [done|]. by inversion Ho.
  - rewrite IH. unfold store at 1. split.
    + intros [Hfs|(o' & Ho' & Hrest)].
      * destruct (emitted o) eqn:Eo; [|by left].
        destruct (decide (specPath (name o.1) = p)) as [<-|Hne].
        -- right. exists o. split; [apply list_elem_of_here|done].
        -- rewrite lookup_insert_ne in Hfs by done. by left.
      * right. exists o'. split; [by apply list_elem_of_further|done].
    + intros [Hfs|(o' & Ho' & Hem & Hpath)].
      * left. destruct (emitted o); [|done].
        destruct (decide (specPath (name o.1) = p)) as [<-|Hne].
        -- rewrite lookup_insert_eq. by eexists.
        -- by rewrite lookup_insert_ne.
      * apply elem_of_cons in Ho' as [->|Ho'].
        -- left. rewrite Hem, <- Hpath, lookup_insert_eq. by eexists.
        -- right. by exists o'.
Qed.

Lemma directory_store outs : forall fs,
  filter (fun kv : string * string => inDirectory SI_SPEC_DIR kv.1 = true)
         (foldl store fs outs) =
  foldl store
    (filter (fun kv : string * string => inDirectory SI_SPEC_DIR kv.1 = true) fs)
    outs.
Proof.
  induction outs as [|o outs IH]; intros fs; simpl; [done|].
  rewrite IH. f_equal. unfold store. destruct (emitted o); [|done].
  by rewrite map_filter_insert_True by apply specPath_inDirectory.
Qed.

Lemma directory_cleared (fs : gmap string string) :
  filter (fun kv : string * string => inDirectory SI_SPEC_DIR kv.1 = true)
    (filter (fun kv : string * string => inDirectory SI_SPEC_DIR kv.1 = false)
            fs) = ∅.
Proof.
  apply map_eq. intros p. rewrite lookup_empty.
  apply map_lookup_filter_None. right. intros t Ht Hin.
  apply map_lookup_filter_Some in Ht as [_ Hout]. simpl in *. congruence.
Qed.

(** After a run that reaches the second loop the directory holds what the
    writes that went through stored in an empty directory. *)
Lemma directory_after_run w specs :
  finalized w = inr specs ->
  directory SI_SPEC_DIR (generateSiSpecs w).2 =
  foldl store ∅ (outcomes specs (faults w)).
Proof.
  intros Hfin. unfold directory. rewrite generateSiSpecs_run, Hfin.
  cbn [snd files]. by rewrite directory_store, directory_cleared.
Qed.

Lemma elem_of_outcomes w specs o :
  o ∈ outcomes specs (faults w) <->
  exists i, specs !! i = Some o.1 /\ o.2 = diskAnswer w i.
Proof.
  rewrite list_elem_of_lookup. unfold diskAnswer. split.
  - intros [i Hi]. exists i. rewrite outcomes_lookup in Hi.
    destruct (specs !! i) as [s|]; simplify_eq/=. done.
  - intros (i & Hi & Ho). exists i. rewrite outcomes_lookup, Hi. simpl.
    destruct o; simpl in *; by subst.
Qed.

Lemma store_elsewhere outs : forall fs p,
  (forall o, o ∈ outs -> emitted o = true -> specPath (name o.1) <> p) ->
  foldl store fs outs !! p = fs !! p.
Proof.
  induction outs as [|o outs IH]; intros fs p Hother; simpl; [done|].
  rewrite IH by (intros o' Ho'; apply Hother; by apply list_elem_of_further).
  unfold store. destruct (emitted o) eqn:Eo; [|done].
  apply lookup_insert_ne. apply Hother; [apply list_elem_of_here|done].
Qed.

(** The last write that goes through to a path decides its text. *)
Lemma store_last outs1 o outs2 fs :
  emitted o = true ->
  (forall o', o' ∈ outs2 -> emitted o' = true -> name o'.1 <> name o.1) ->
  foldl store fs (outs1 ++ o :: outs2) !! specPath (name o.1)
  = Some (JSON_stringify o.1).
Proof.
  intros Ho Hlater. rewrite foldl_app. simpl.
  rewrite store_elsewhere.
  - unfold store. by rewrite Ho, lookup_insert_eq.
  - intros o' Ho' Hem Hpath. apply (Hlater o' Ho' Hem).
    by apply specPath_inj.
Qed.

Lemma outcomes_app specs1 specs2 : forall disk,
  outcomes (specs1 ++ specs2) disk
  = outcomes specs1 disk ++ outcomes specs2 (drop (length specs1) disk).
Proof.
  induction specs1 as [|s specs1 IH]; intros disk; simpl; [done|].
  rewrite IH. do 2 f_equal. destruct disk; simpl; [by rewrite drop_nil|done].
Qed.

Lemma emitted_diskAnswer (o : PkgSpec * option Exn) :
  emitted o = true <-> o.2 = None.
Proof. unfold emitted. destruct o.2; split; congruence. Qed.

End Directory.

(** ** Emission *)

Section Emission.
Context `{PipelineSteps}.

Lemma outcomes_fst specs : forall disk, (outcomes specs disk).*1 = specs.
Proof. induction specs as [|s specs IH]; intros disk; simpl; by rewrite ?IH. Qed.

Lemma documents_of_writes (outs : list (PkgSpec * option Exn)) :
  omap documentOf (writeEvent <$> outs)
  = (fun s => (specPath (name s), JSON_stringify s)) <$> outs.*1.
Proof. induction outs as [|o outs IH]; csimpl; [done|]. by rewrite IH. Qed.

Lemma documents_generateSiSpecs w :
  documents generateSiSpecs w =
  match finalized w with
  | inl _ => []
  | inr specs => (fun s => (specPath (name s), JSON_stringify s)) <$> specs
  end.
Proof.
  unfold documents. rewrite eventsOf_generateSiSpecs, !omap_app.
  assert (Htr : forall cfs, omap documentOf (translateEvent <$> cfs) = []).
  { intros cfs. induction cfs; simpl; auto. }
  rewrite Htr. simpl. destruct (finalized w) as [e|specs]; [done|]. simpl.
  by rewrite documents_of_writes, outcomes_fst.
Qed.

Lemma emitted_or_failed (outs : list (PkgSpec * option Exn)) :
  length (List.filter emitted outs) + length (omap writeFailure outs)
  = length outs.
Proof.
  induction outs as [|[s [e|]] outs IH]; [done| |].
  - change (length (List.filter emitted outs)
            + S (length (omap writeFailure outs)) = S (length outs)).
    lia.
  - change (S (length (List.filter emitted outs))
            + length (omap writeFailure outs) = S (length outs)).
    lia.
Qed.

(** C9: when a run completes, the files of the directory si-specs are
    exactly the files [<name>.json] of the finalized specifications whose write
    went through, each holding the JSON text of such a specification; whatever
    the directory held before is gone, since the directory is emptied after
    the last stage and before the first write. *)
Theorem directory_holds_this_run_only (w : World) :
  (generateSiSpecs w).1 = inr tt ->
  exists specs,
    finalized w = inr specs
    /\ (forall path,
          is_Some (directory SI_SPEC_DIR (generateSiSpecs w).2 !! path) <->
          exists i spec, specs !! i = Some spec /\ diskAnswer w i = None
                         /\ path = specPath (name spec))
    /\ (forall path text,
          directory SI_SPEC_DIR (generateSiSpecs w).2 !! path = Some text ->
          exists i spec, specs !! i = Some spec /\ diskAnswer w i = None
                         /\ path = specPath (name spec)
                         /\ text = JSON_stringify spec)
    /\ (forall i spec,
          specs !! i = Some spec -> diskAnswer w i = None ->
          (forall j spec', i < j -> specs !! j = Some spec' ->
             diskAnswer w j = None -> name spec' <> name spec) ->
          directory SI_SPEC_DIR (generateSiSpecs w).2 !! specPath (name spec)
          = Some (JSON_stringify spec))
    /\ (exists before after,
          eventsOf generateSiSpecs w
          = before ++ EmptiesDirectory SI_SPEC_DIR :: after
          /\ List.filter isWrite before = []
          /\ List.filter isWrite after = after
          /\ documentOf <$> after
             = (fun s => Some (specPath (name s), JSON_stringify s)) <$> specs).
Proof.
  intros Hok. rewrite result_generateSiSpecs in Hok.
  destruct (finalized w) as [e|specs] eqn:Hfin; [done|]. exists specs.
  split; [done|]. rewrite (directory_after_run w specs Hfin).
  split; [|split; [|split]].
  - intros path. rewrite store_lookup_is_Some, lookup_empty. split.
    + intros [[? [=]]|(o & Ho & Hem & Hpath)].
      apply elem_of_outcomes in Ho as (i & Hi & Hans).
      apply emitted_diskAnswer in Hem. exists i, o.1. by rewrite <- Hans.
    + intros (i & spec & Hi & Hans & ->). right.
      exists (spec, diskAnswer w i). split; [|split; [|done]].
      * apply elem_of_outcomes. by exists i.
      * apply emitted_diskAnswer. done.
  - intros path text Hp.
    apply store_lookup_Some in Hp as [Hp|(o & Ho & Hem & Hpath & ->)].
    { by rewrite lookup_empty in Hp. }
    apply elem_of_outcomes in Ho as (i & Hi & Hans).
    apply emitted_diskAnswer in Hem. exists i, o.1. by rewrite <- Hans.
  - intros i spec Hi Hwent Hlater.
    rewrite <- (take_drop_middle specs i spec Hi), outcomes_app. simpl.
    assert (Hlen : length (take i specs) = i).
    { apply length_take_le. apply lookup_lt_Some in Hi. lia. }
    assert (Hans : mjoin (head (drop (length (take i specs)) (faults w)))
                   = None).
    { rewrite Hlen, head_lookup, lookup_drop, Nat.add_0_r. exact Hwent. }
    rewrite Hans.
    apply (store_last _ (spec, None)); [done|].
    intros o' Ho' Hem. simpl.
    apply list_elem_of_lookup in Ho' as [k Hk].
    rewrite outcomes_lookup in Hk.
    destruct (drop (S i) specs !! k) as [spec'|] eqn:Hspec'; simplify_eq/=.
    rewrite lookup_drop in Hspec'.
    apply (Hlater (S i + k) spec'); [lia|done|].
    apply emitted_diskAnswer in Hem. simpl in Hem. unfold diskAnswer.
    rewrite Hlen, lookup_tail, lookup_drop in Hem.
    by replace (S i + k) with (i + S k) by lia.
  - exists ((translateEvent <$> Object_values (cfDb w))
            ++ stageEvents (drafts (Object_values (cfDb w)))
            ++ [StageEnds SchemaIds specs]),
           (writeEvent <$> outcomes specs (faults w)).
    rewrite eventsOf_generateSiSpecs, Hfin. split; [|split; [|split]].
    + by rewrite <- !app_assoc.
    + rewrite !List.filter_app. simpl.
      induction (Object_values (cfDb w)); simpl; auto.
    + induction (outcomes specs (faults w)); simpl; by f_equal.
    + rewrite <- (outcomes_fst specs (faults w)) at 2.
      induction (outcomes specs (faults w)); simpl; by f_equal.
Qed.

(** C5: when the write of one finalized specification fails, the run still
    completes; every specification of the collection is handed to the disk,
    the ones after the failure too; the failed write stores nothing; the
    console holds the reason of every failed translation and of every failed
    write and ends with the summary, which counts the writes that went
    through against the schemas attempted; a failed write is not among the
    counted. *)
Theorem emission_failure_is_local (w : World) (specs : list PkgSpec)
    (i : nat) (spec : PkgSpec) (e : Exn) :
  finalized w = inr specs ->
  specs !! i = Some spec ->
  diskAnswer w i = Some e ->
  let outs := outcomes specs (faults w) in
  let imported := length (List.filter emitted outs) in
  (generateSiSpecs w).1 = inr tt
  /\ (forall j spec', specs !! j = Some spec' ->
        WritesFile (specPath (name spec')) (JSON_stringify spec')
                   (bool_decide (diskAnswer w j = None))
        ∈ eventsOf generateSiSpecs w)
  /\ ((forall j spec', specs !! j = Some spec' -> name spec' = name spec ->
         diskAnswer w j <> None) ->
      directory SI_SPEC_DIR (generateSiSpecs w).2 !! specPath (name spec)
      = None)
  /\ printedBy generateSiSpecs w
     = buildLog (Object_values (cfDb w)) ++ omap writeFailure outs
       ++ [summary imported (length (Object_values (cfDb w)))]
  /\ ("Error writing to file: " +:+ name spec +:+ ": " +:+ e)
     ∈ omap writeFailure outs
  /\ imported + length (omap writeFailure outs) = length specs
  /\ (forall j, outs !! j = (fun s => (s, diskAnswer w j)) <$> specs !! j).
Proof.
  intros Hfin Hi He outs imported.
  split; [by rewrite result_generateSiSpecs, Hfin|].
  split; [|split; [|split; [|split; [|split]]]].
  - intros j spec' Hj. rewrite eventsOf_generateSiSpecs, Hfin.
    rewrite !elem_of_app. right. right. right.
    apply list_elem_of_fmap. exists (spec', diskAnswer w j). split.
    + unfold writeEvent, emitted. simpl. by destruct (diskAnswer w j).
    + apply elem_of_outcomes. by exists j.
  - intros Hothers. rewrite (directory_after_run w specs Hfin).
    apply eq_None_not_Some. rewrite store_lookup_is_Some, lookup_empty.
    intros [[? [=]]|(o & Ho & Hem & Hpath)].
    apply elem_of_outcomes in Ho as (j & Hj & Hans).
    apply emitted_diskAnswer in Hem.
    apply (Hothers j o.1 Hj); [|congruence].
    by apply specPath_inj.
  - by rewrite printedBy_generateSiSpecs, Hfin.
  - apply list_elem_of_omap. exists (spec, Some e). split; [|done].
    apply elem_of_outcomes. by exists i.
  - unfold imported, outs. by rewrite emitted_or_failed, outcomes_length.
  - intros j. apply outcomes_lookup.
Qed.

End Emission.

(** ** A schema that does not translate *)

Section Batch.
Context `{PipelineSteps}.

Lemma drafts_app cfs1 cfs2 : drafts (cfs1 ++ cfs2) = drafts cfs1 ++ drafts cfs2.
Proof. apply omap_app. Qed.

Lemma buildLog_app cfs1 cfs2 :
  buildLog (cfs1 ++ cfs2) = buildLog cfs1 ++ buildLog cfs2.
Proof. apply omap_app. Qed.

(** C4, amended: a schema whose translation throws is skipped alone; the
    schemas after it are translated all the same, the stages run on the
    drafts of the schemas that translate, and the run ends, writes and stores
    what it would without that schema; the failure leaves one line
    [Error Building: <typeName>: <exception>] on the console, between the
    lines of the failures before and after it, and the schema counts among
    the attempted ones of the summary; no count of failures is kept. *)
Theorem failed_translation_is_skipped (w : World) (before after : CfDatabase)
    (key : string) (cf : RawSchema) (e : Exn) :
  cfDb w = before ++ (key, cf) :: after ->
  pkgSpecFromCf cf = inl e ->
  let w' := mkWorld (before ++ after) (priorSpecs w) (files w) (console w)
                    (faults w) (trace w) in
  drafts (Object_values (cfDb w))
  = drafts (Object_values before) ++ drafts (Object_values after)
  /\ (generateSiSpecs w).1 = (generateSiSpecs w').1
  /\ files (generateSiSpecs w).2 = files (generateSiSpecs w').2
  /\ (exists rest,
        eventsOf generateSiSpecs w
        = (translateEvent <$> Object_values before)
          ++ Translates (typeName cf)
          :: (translateEvent <$> Object_values after) ++ rest
        /\ eventsOf generateSiSpecs w'
           = (translateEvent <$> Object_values before)
             ++ (translateEvent <$> Object_values after) ++ rest
        /\ StageBegins OutputSockets
             (drafts (Object_values before) ++ drafts (Object_values after))
           ∈ rest)
  /\ printedBy generateSiSpecs w
     = buildLog (Object_values before)
       ++ ("Error Building: " +:+ typeName cf +:+ ": " +:+ e)
       :: buildLog (Object_values after)
       ++ match finalized w with
          | inl _ => []
          | inr specs =>
              omap writeFailure (outcomes specs (faults w))
              ++ [summary
                    (length (List.filter emitted (outcomes specs (faults w))))
                    (S (length before + length after))]
          end.
Proof.
  intros Hdb Hthrow w'.
  assert (Hvalues : Object_values (cfDb w)
                    = Object_values before ++ cf :: Object_values after).
  { unfold Object_values. by rewrite Hdb, fmap_app. }
  assert (Hvalues' : Object_values (cfDb w')
                     = Object_values before ++ Object_values after).
  { unfold Object_values. simpl. by rewrite fmap_app. }
  assert (Hdrafts : drafts (Object_values (cfDb w))
                    = drafts (Object_values (cfDb w'))).
  { rewrite Hvalues, Hvalues', !drafts_app, drafts_cons. by rewrite Hthrow. }
  assert (Hfin : finalized w = finalized w').
  { unfold finalized. by rewrite Hdrafts. }
  split; [by rewrite Hdrafts, Hvalues', drafts_app|].
  split; [by rewrite !result_generateSiSpecs, Hfin|].
  split; [by rewrite !generateSiSpecs_run, Hfin; destruct (finalized w')|].
  split.
  - eexists. rewrite !eventsOf_generateSiSpecs, <- Hfin, <- Hdrafts.
    rewrite Hvalues', Hvalues at 1. rewrite !fmap_app, fmap_cons.
    rewrite <- !app_assoc. simpl. repeat split.
    rewrite Hdrafts, Hvalues', drafts_app.
    apply list_elem_of_here.
  - rewrite printedBy_generateSiSpecs, Hvalues, buildLog_app, buildLog_cons.
    rewrite Hthrow, <- app_assoc. simpl. repeat f_equal.
    unfold Object_values. rewrite !length_app, !length_fmap. simpl.
    rewrite !length_fmap. destruct (finalized w); [done|].
    repeat f_equal. lia.
Qed.

End Batch.

(** ** The stages as specified: augmentation *)

Section Keyed.
Context {A K : Type} `{EqDecision K} (key : A -> K).

Lemma addKeyed_present (l : list A) (x : A) :
  key x ∈ key <$> l -> SpecModel.addKeyed key l x = l.
Proof. intros Hin. unfold SpecModel.addKeyed. by rewrite decide_True. Qed.

Lemma addKeyed_keys (l : list A) (x : A) (k : K) :
  k ∈ key <$> SpecModel.addKeyed key l x <-> k ∈ key <$> l \/ k = key x.
Proof.
  unfold SpecModel.addKeyed. destruct (decide (key x ∈ key <$> l)) as [Hin|Hout].
  - split; [by left|]. intros [?| ->]; done.
  - rewrite fmap_app, elem_of_app. simpl. rewrite list_elem_of_singleton. done.
Qed.

Lemma addAllKeyed_keys (news l : list A) (k : K) :
  k ∈ key <$> SpecModel.addAllKeyed key l news
  <-> k ∈ key <$> l \/ k ∈ key <$> news.
Proof.
  unfold SpecModel.addAllKeyed. revert l.
  induction news as [|x news IH]; intros l; simpl.
  - split; [by left|]. intros [?|Hnil]; [done|]. by inversion Hnil.
  - rewrite IH, addKeyed_keys, elem_of_cons. tauto.
Qed.

Lemma addAllKeyed_present (news l : list A) :
  (forall x, x ∈ news -> key x ∈ key <$> l) ->
  SpecModel.addAllKeyed key l news = l.
Proof.
  unfold SpecModel.addAllKeyed. induction news as [|x news IH]; intros Hall;
    simpl; [done|].
  rewrite addKeyed_present by (apply Hall, list_elem_of_here).
  apply IH. intros y Hy. by apply Hall, list_elem_of_further.
Qed.

Lemma addAllKeyed_idempotent (news l : list A) :
  SpecModel.addAllKeyed key (SpecModel.addAllKeyed key l news) news
  = SpecModel.addAllKeyed key l news.
Proof.
  apply addAllKeyed_present. intros x Hx.
  apply addAllKeyed_keys. right. by apply list_elem_of_fmap_2.
Qed.

End Keyed.

Section Augmentation.
Context `{SpecModel.Policy}.

Lemma augment_idempotent (s : PkgSpec) :
  SpecModel.augment (SpecModel.augment s) = SpecModel.augment s.
Proof.
  unfold SpecModel.augment, with_sockets, with_props. simpl.
  by rewrite !addAllKeyed_idempotent.
Qed.

Lemma attachIntrinsics_idempotent (s : PkgSpec) :
  SpecModel.attachIntrinsics (SpecModel.attachIntrinsics s)
  = SpecModel.attachIntrinsics s.
Proof.
  unfold SpecModel.attachIntrinsics, with_funcs. simpl.
  by rewrite !addAllKeyed_idempotent.
Qed.

(** C6: the Default Augmenter and the Intrinsic Attacher, as specified, are
    idempotent on every collection: the second application adds no property,
    socket or function, since every standard entry finds its key taken. *)
Theorem augmentation_is_idempotent (specs : list PkgSpec) :
  SpecModel.addDefaultPropsAndSockets
    (SpecModel.addDefaultPropsAndSockets specs)
  = SpecModel.addDefaultPropsAndSockets specs
  /\ SpecModel.generateIntrinsicFuncs (SpecModel.generateIntrinsicFuncs specs)
     = SpecModel.generateIntrinsicFuncs specs.
Proof.
  unfold SpecModel.addDefaultPropsAndSockets, SpecModel.generateIntrinsicFuncs.
  rewrite <- !list_fmap_compose. split; apply list_fmap_ext; intros i s _; simpl.
  - apply augment_idempotent.
  - apply attachIntrinsics_idempotent.
Qed.

End Augmentation.

(** ** The stages as specified: identity reconciliation *)

Section Reconciliation.
Context `{SpecModel.Policy}.

Lemma reconcile_name existing s : name (SpecModel.reconcile existing s) = name s.
Proof. unfold SpecModel.reconcile. by destruct (SpecModel.matchPrevious _ _). Qed.

Lemma reconcile_exact existing s p :
  existing !! name s = Some p ->
  schemaId (SpecModel.reconcile existing s) = schemaId p.
Proof.
  intros Hp. unfold SpecModel.reconcile, SpecModel.matchPrevious.
  by rewrite Hp.
Qed.

Lemma updateSchemaIds_ok existing specs final :
  SpecModel.updateSchemaIdsForExistingSpecs existing specs = inr final ->
  final = SpecModel.reconcile existing <$> specs.
Proof.
  unfold SpecModel.updateSchemaIdsForExistingSpecs.
  destruct (SpecModel.identityConflict _); congruence.
Qed.

End Reconciliation.

Section ReconciledRun.
Context `{PipelineSteps}.

(** The collection the reconciler hands back in a run is the finalized one. *)
Lemma reconciler_ends w final :
  StageEnds SchemaIds final ∈ eventsOf generateSiSpecs w ->
  finalized w = inr final.
Proof.
  rewrite eventsOf_generateSiSpecs, !elem_of_app.
  intros [Htr|[Hst|Hend]].
  - apply list_elem_of_fmap in Htr as (cf & [=] & _).
  - unfold stageEvents in Hst.
    repeat (apply elem_of_cons in Hst as [[=]|Hst]).
    by apply elem_of_nil in Hst.
  - destruct (finalized w) as [e|specs]; [by apply elem_of_nil in Hend|].
    apply elem_of_app in Hend as [Hend|Hend].
    + apply elem_of_cons in Hend as [[= ->]|Hend]; [done|].
      apply elem_of_cons in Hend as [[=]|Hend]. by apply elem_of_nil in Hend.
    + apply list_elem_of_fmap in Hend as (o & [=] & _).
Qed.

End ReconciledRun.

(** C1: in a run whose last stage is the Identity Reconciler as specified,
    when the prior specifications hold one for type [T] with schemaId [X],
    every specification named [T] that enters the reconciler leaves it, at
    the same place of the collection, with schemaId [X]; every finalized
    specification named [T] carries [X], and the document the run writes for
    it is the JSON text of that specification. *)
Theorem schemaId_is_carried_forward `{SpecModel.Policy}
    (steps : PipelineSteps) (w : World) (T X : string) (p : PkgSpec)
    (final : list PkgSpec) :
  @updateSchemaIdsForExistingSpecs steps
  = SpecModel.updateSchemaIdsForExistingSpecs ->
  priorSpecs w !! T = Some p ->
  schemaId p = Some X ->
  StageEnds SchemaIds final ∈ eventsOf generateSiSpecs w ->
  (forall spec, spec ∈ final -> name spec = T -> schemaId spec = Some X)
  /\ (forall i s0,
        afterAssetFuncs (drafts (Object_values (cfDb w))) !! i = Some s0 ->
        name s0 = T ->
        exists spec,
          final !! i = Some spec /\ name spec = T /\ schemaId spec = Some X
          /\ WritesFile (specPath T) (JSON_stringify spec)
                        (bool_decide (diskAnswer w i = None))
             ∈ eventsOf generateSiSpecs w).
Proof.
  intros Hsteps Hprior HX Hends.
  pose proof (reconciler_ends w final Hends) as Hfin.
  pose proof Hfin as Hfinal. unfold finalized in Hfinal.
  rewrite Hsteps in Hfinal. apply updateSchemaIds_ok in Hfinal.
  split.
  - intros spec Hspec Hname. rewrite Hfinal in Hspec.
    apply list_elem_of_fmap in Hspec as (s0 & -> & _).
    rewrite reconcile_name in Hname.
    rewrite (reconcile_exact _ _ p) by (by rewrite Hname). done.
  - intros i s0 Hi Hname.
    exists (SpecModel.reconcile (priorSpecs w) s0).
    assert (Hlookup : final !! i
                      = Some (SpecModel.reconcile (priorSpecs w) s0)).
    { by rewrite Hfinal, list_lookup_fmap, Hi. }
    split; [done|]. split; [by rewrite reconcile_name|].
    split; [rewrite (reconcile_exact _ _ p); by rewrite ?Hname|].
    rewrite eventsOf_generateSiSpecs, Hfin, !elem_of_app. right. right. right.
    apply list_elem_of_fmap.
    exists (SpecModel.reconcile (priorSpecs w) s0, diskAnswer w i). split.
    + unfold writeEvent, emitted. simpl. rewrite reconcile_name, Hname.
      by destruct (diskAnswer w i).
    + apply elem_of_outcomes. by exists i.
Qed.

(** ** The stages as specified: input sockets *)

Section InputSocketResolution.
Context `{SpecModel.Policy}.






End InputSocketResolution.

(** ** The stages as specified: sub-assets *)

Section SubAssetExtraction.
Context `{SpecModel.Policy}.
















End SubAssetExtraction.

(** ** The scenario, run *)

Section ScenarioRuns.
Import Scenario.

Example broken_does_not_translate :
  SpecModel.pkgSpecFromCf broken
  = inl "SchemaTranslationError: nesting too deep".
Proof. reflexivity. Qed.

Example queue_and_topic_share_the_redrive_policy :
  SpecModel.generateSubAssets [queueDraft; topicDraft]
  = [ mkPkgSpec "Example::Queue::Resource" None
        [("QueueArn", KString);
         ("RedrivePolicy", KRef (showKind redriveShape))] [] [] None [];
      mkPkgSpec "Example::Topic::Resource" None
        [("TopicName", KString);
         ("Retry", KArray (KRef (showKind redriveShape)))] [] [] None [];
      mkPkgSpec (showKind redriveShape) None
        [("deadLetterTargetArn", KString); ("maxReceiveCount", KNumber)] [] []
        (Some "Example::Queue::Resource") [] ].
Proof. reflexivity. Qed.

Example consumer_is_wired_once :
  SpecModel.createInputSocketsBasedOnOutputSockets wiring !! 2
  = Some (mkPkgSpec "Example::Consumer::Resource" None
            [("QueueArn", KString); ("Arn", KString)]
            [mkSocket "QueueArn" KString Input] [] None
            ["ambiguous output socket match for Arn"]).
Proof. reflexivity. Qed.

Example one_identifier_for_two_names_is_fatal :
  SpecModel.updateSchemaIdsForExistingSpecs
    {[ "A" := mkPkgSpec "A" (Some "01H") [] [] [] None [];
       "B" := mkPkgSpec "B" (Some "01H") [] [] [] None [] ]}
    [mkPkgSpec "A" None [] [] [] None []; mkPkgSpec "B" None [] [] [] None []]
  = inl "IdentityConflict".
Proof. vm_compute. reflexivity. Qed.

Example run1_console :
  console (generateSiSpecs run1).2
  = [ "Error Building: Example::Broken::Resource: SchemaTranslationError: nesting too deep";
      "Error writing to file: Example::Topic::Resource: disk full";
      "built 2 out of 3" ].
Proof. vm_compute. reflexivity. Qed.

Example run1_keeps_other_directories :
  files (generateSiSpecs run1).2 !! "notes/readme.txt" = Some "kept"
  /\ files (generateSiSpecs run1).2
       !! "si-specs/Example::Gone::Resource.json" = None
  /\ is_Some (files (generateSiSpecs run1).2
                !! "si-specs/Example::Queue::Resource.json")
  /\ files (generateSiSpecs run1).2
       !! "si-specs/Example::Topic::Resource.json" = None.
Proof. vm_compute. repeat split. by eexists. Qed.

Lemma schemaId_is_carried_forward_witness :
  (forall spec, spec ∈ finalOf run1 -> name spec = "Example::Queue::Resource" ->
     schemaId spec = Some "01HQUEUE")
  /\ (forall i s0,
        afterAssetFuncs (drafts (Object_values (cfDb run1))) !! i = Some s0 ->
        name s0 = "Example::Queue::Resource" ->
        exists spec,
          finalOf run1 !! i = Some spec
          /\ name spec = "Example::Queue::Resource"
          /\ schemaId spec = Some "01HQUEUE"
          /\ WritesFile (specPath "Example::Queue::Resource")
                        (JSON_stringify spec)
                        (bool_decide (diskAnswer run1 i = None))
             ∈ eventsOf generateSiSpecs run1).
Proof.
  apply (schemaId_is_carried_forward steps run1 "Example::Queue::Resource"
           "01HQUEUE" queueBefore (finalOf run1)).
  - reflexivity.
  - reflexivity.
  - reflexivity.
  - vm_compute. repeat constructor.
Defined.

Lemma failed_translation_is_skipped_witness :
  let w := world [queue; broken; topic] queuePrior oldFiles [] in
  let w' := world [queue; topic] queuePrior oldFiles [] in
  (generateSiSpecs w).1 = (generateSiSpecs w').1
  /\ files (generateSiSpecs w).2 = files (generateSiSpecs w').2
  /\ printedBy generateSiSpecs w
     = [ "Error Building: Example::Broken::Resource: SchemaTranslationError: nesting too deep";
         "built 3 out of 3" ].
Proof.
  intros w w'.
  destruct (failed_translation_is_skipped w (database [queue])
              (database [topic]) "Example::Broken::Resource" broken
              "SchemaTranslationError: nesting too deep")
    as (_ & Hresult & Hfiles & _ & Hprinted).
  - reflexivity.
  - vm_compute. reflexivity.
  - split; [exact Hresult|]. split; [exact Hfiles|].
    rewrite Hprinted. vm_compute. reflexivity.
Defined.

Lemma emission_failure_is_local_witness :
  let outs := outcomes (finalOf run1) (faults run1) in
  let imported := length (List.filter emitted outs) in
  (generateSiSpecs run1).1 = inr tt
  /\ (forall j spec', finalOf run1 !! j = Some spec' ->
        WritesFile (specPath (name spec')) (JSON_stringify spec')
                   (bool_decide (diskAnswer run1 j = None))
        ∈ eventsOf generateSiSpecs run1)
  /\ ((forall j spec', finalOf run1 !! j = Some spec' ->
         name spec' = name (finalAt run1 1) ->
         diskAnswer run1 j <> None) ->
      directory SI_SPEC_DIR (generateSiSpecs run1).2
        !! specPath (name (finalAt run1 1))
      = None)
  /\ printedBy generateSiSpecs run1
     = buildLog (Object_values (cfDb run1)) ++ omap writeFailure outs
       ++ [summary imported (length (Object_values (cfDb run1)))]
  /\ ("Error writing to file: " +:+ name (finalAt run1 1) +:+ ": "
      +:+ "disk full")
     ∈ omap writeFailure outs
  /\ imported + length (omap writeFailure outs) = length (finalOf run1)
  /\ (forall j, outs !! j
                = (fun s => (s, diskAnswer run1 j)) <$> finalOf run1 !! j).
Proof.
  apply (emission_failure_is_local run1 (finalOf run1) 1 (finalAt run1 1)
           "disk full").
  - vm_compute. reflexivity.
  - vm_compute. reflexivity.
  - reflexivity.
Defined.

Lemma directory_holds_this_run_only_witness :
  exists specs,
    finalized run1 = inr specs
    /\ (forall path,
          is_Some (directory SI_SPEC_DIR (generateSiSpecs run1).2 !! path) <->
          exists i spec, specs !! i = Some spec /\ diskAnswer run1 i = None
                         /\ path = specPath (name spec))
    /\ (forall path text,
          directory SI_SPEC_DIR (generateSiSpecs run1).2 !! path = Some text ->
          exists i spec, specs !! i = Some spec /\ diskAnswer run1 i = None
                         /\ path = specPath (name spec)
                         /\ text = JSON_stringify spec)
    /\ (forall i spec,
          specs !! i = Some spec -> diskAnswer run1 i = None ->
          (forall j spec', i < j -> specs !! j = Some spec' ->
             diskAnswer run1 j = None -> name spec' <> name spec) ->
          directory SI_SPEC_DIR (generateSiSpecs run1).2
            !! specPath (name spec)
          = Some (JSON_stringify spec))
    /\ (exists before after,
          eventsOf generateSiSpecs run1
          = before ++ EmptiesDirectory SI_SPEC_DIR :: after
          /\ List.filter isWrite before = []
          /\ List.filter isWrite after = after
          /\ documentOf <$> after
             = (fun s => Some (specPath (name s), JSON_stringify s)) <$> specs).
Proof.
  apply (directory_holds_this_run_only run1). vm_compute. reflexivity.
Defined.



(** C4, as stated, fails: a failed translation is counted nowhere.  The run of
    the queue and the broken schema and the run of two schemas that both
    translate report the same counts, two built out of two (the queue and its
    sub-asset in the first), while one translation failed in the first and
    none in the second.  Likewise one built out of two is reported both when
    one of two schemas fails to translate and when both translate and one
    write fails.  The failure shows as a console line only. *)
Lemma failed_translation_is_not_counted :
  let w1 := world [queue; broken] ∅ ∅ [] in
  let w2 := world [plain; label] ∅ ∅ [] in
  let w3 := world [plain; broken] ∅ ∅ [] in
  let w4 := world [plain; label] ∅ ∅ [None; Some "disk full"] in
  failedTranslations (Object_values (cfDb w1)) = 1
  /\ failedTranslations (Object_values (cfDb w2)) = 0
  /\ printedBy generateSiSpecs w1
     = [ "Error Building: Example::Broken::Resource: SchemaTranslationError: nesting too deep";
         "built 2 out of 2" ]
  /\ printedBy generateSiSpecs w2 = [ "built 2 out of 2" ]
  /\ importedCount w1 = importedCount w2
  /\ attemptedCount w1 = attemptedCount w2
  /\ failedTranslations (Object_values (cfDb w3)) = 1
  /\ failedTranslations (Object_values (cfDb w4)) = 0
  /\ printedBy generateSiSpecs w3
     = [ "Error Building: Example::Broken::Resource: SchemaTranslationError: nesting too deep";
         "built 1 out of 2" ]
  /\ printedBy generateSiSpecs w4
     = [ "Error writing to file: Example::Label::Resource: disk full";
         "built 1 out of 2" ]
  /\ importedCount w3 = importedCount w4
  /\ attemptedCount w3 = attemptedCount w4.
Proof. vm_compute. repeat split. Qed.

End ScenarioRuns.

(** ** Further properties of [generateSiSpecs] *)

Section RunFacts.
Context `{PipelineSteps}.

(** X1: when the reconciler throws on the prior specifications and the
    collection the stages have produced, the run ends with that exception
    before [emptyDirectory] is reached: the files are as they were, the
    directory is not emptied, no write is attempted, no summary is printed,
    and the console holds the lines of the failed translations only. *)
Theorem reconciler_exception_leaves_the_files (w : World) (e : Exn) :
  updateSchemaIdsForExistingSpecs (priorSpecs w)
    (afterAssetFuncs (drafts (Object_values (cfDb w)))) = inl e ->
  (generateSiSpecs w).1 = inl e
  /\ files (generateSiSpecs w).2 = files w
  /\ faults (generateSiSpecs w).2 = faults w
  /\ List.filter isWrite (eventsOf generateSiSpecs w) = []
  /\ (forall dir, EmptiesDirectory dir ∈ eventsOf generateSiSpecs w -> False)
  /\ printedBy generateSiSpecs w = buildLog (Object_values (cfDb w)).
Proof.
  intros Hthrow. fold (finalized w) in Hthrow.
  rewrite result_generateSiSpecs, eventsOf_generateSiSpecs,
    printedBy_generateSiSpecs, generateSiSpecs_run.
  fold (finalized w). rewrite Hthrow. cbn [snd files faults].
  rewrite !app_nil_r.
  split; [done|]. split; [done|]. split; [done|]. split; [|split; [|done]].
  - rewrite List.filter_app.
    assert (Htr : List.filter isWrite
                    (translateEvent <$> Object_values (cfDb w)) = []).
    { induction (Object_values (cfDb w)); simpl; auto. }
    by rewrite Htr.
  - intros dir Hin. apply elem_of_app in Hin as [Hin|Hin].
    + apply list_elem_of_fmap in Hin as (cf & [=] & _).
    + unfold stageEvents in Hin.
      repeat (apply elem_of_cons in Hin as [[=]|Hin]).
      by apply elem_of_nil in Hin.
Qed.

Lemma elem_of_drafts (cfs : list RawSchema) (pkg : PkgSpec) :
  pkg ∈ drafts cfs <-> exists cf, cf ∈ cfs /\ pkgSpecFromCf cf = inr pkg.
Proof.
  unfold drafts, translation. rewrite list_elem_of_omap. split.
  - intros (cf & Hcf & Htr). exists cf. split; [done|].
    destruct (pkgSpecFromCf cf); congruence.
  - intros (cf & Hcf & Htr). exists cf. split; [done|]. by rewrite Htr.
Qed.

Lemma elem_of_buildLog (cfs : list RawSchema) (line : string) :
  line ∈ buildLog cfs <->
  exists cf e, cf ∈ cfs /\ pkgSpecFromCf cf = inl e
               /\ line = "Error Building: " +:+ typeName cf +:+ ": " +:+ e.
Proof.
  unfold buildLog, buildFailure. rewrite list_elem_of_omap. split.
  - intros (cf & Hcf & Htr). exists cf.
    destruct (pkgSpecFromCf cf) as [e|]; [|done]. exists e.
    split; [done|]. split; [done|]. congruence.
  - intros (cf & e & Hcf & Htr & ->). exists cf. split; [done|].
    by rewrite Htr.
Qed.

Lemma drafts_or_failures (cfs : list RawSchema) :
  length (drafts cfs) + length (buildLog cfs) = length cfs.
Proof.
  induction cfs as [|cf cfs IH]; [done|].
  rewrite drafts_cons, buildLog_cons.
  destruct (pkgSpecFromCf cf); simpl; lia.
Qed.

(** X3: no schema is lost in the first loop.  Each schema of the database is
    either translated, and its draft is in the collection the first stage
    begins on, or it has an [Error Building] line with its type name and its
    exception on the console; drafts and lines add up to the schemas, and the
    collection holds nothing but drafts of schemas of the database. *)
Theorem every_schema_is_translated_or_logged (w : World) :
  exists d,
    StageBegins OutputSockets d ∈ eventsOf generateSiSpecs w
    /\ length d + failedTranslations (Object_values (cfDb w))
       = length (Object_values (cfDb w))
    /\ (forall cf, cf ∈ Object_values (cfDb w) ->
          (exists pkg, pkgSpecFromCf cf = inr pkg /\ pkg ∈ d)
          \/ (exists e, pkgSpecFromCf cf = inl e
                /\ ("Error Building: " +:+ typeName cf +:+ ": " +:+ e)
                   ∈ printedBy generateSiSpecs w))
    /\ (forall pkg, pkg ∈ d ->
          exists cf, cf ∈ Object_values (cfDb w)
                     /\ pkgSpecFromCf cf = inr pkg).
Proof.
  exists (drafts (Object_values (cfDb w))).
  split; [|split; [|split]].
  - rewrite eventsOf_generateSiSpecs. apply elem_of_app. right.
    apply elem_of_app. left. apply list_elem_of_here.
  - apply drafts_or_failures.
  - intros cf Hcf. destruct (pkgSpecFromCf cf) as [e|pkg] eqn:Htr.
    + right. exists e. split; [done|].
      rewrite printedBy_generateSiSpecs. apply elem_of_app. left.
      apply elem_of_buildLog. by exists cf, e.
    + left. exists pkg. split; [done|]. apply elem_of_drafts. by exists cf.
  - intros pkg Hpkg. by apply elem_of_drafts.
Qed.

Lemma outcomes_all_emitted specs : forall disk,
  (forall i, i < length specs -> mjoin (disk !! i) = None) ->
  outcomes specs disk = (fun s => (s, None)) <$> specs.
Proof.
  induction specs as [|s specs IH]; intros disk Hok; [done|].
  simpl. rewrite IH.
  - f_equal. f_equal. specialize (Hok 0 ltac:(simpl; lia)).
    by rewrite <- head_lookup in Hok.
  - intros i Hi. specialize (Hok (S i) ltac:(simpl; lia)).
    by rewrite lookup_tail.
Qed.

Lemma store_all_size (specs : list PkgSpec) : forall fs : gmap string string,
  NoDup (name <$> specs) ->
  (forall s, s ∈ specs -> fs !! specPath (name s) = None) ->
  size (foldl store fs ((fun s => (s, @None Exn)) <$> specs))
  = size fs + length specs.
Proof.
  induction specs as [|s specs IH]; intros fs Hnodup Hfree; simpl; [lia|].
  rewrite fmap_cons in Hnodup. apply NoDup_cons in Hnodup as [Hs Hnodup].
  rewrite IH; [|done|].
  - unfold store. simpl.
    rewrite map_size_insert_None by (apply Hfree, list_elem_of_here). lia.
  - intros s' Hs'. unfold store. simpl. rewrite lookup_insert_ne.
    + apply Hfree. by apply list_elem_of_further.
    + intros Heq. apply specPath_inj in Heq. apply Hs. rewrite Heq.
      by apply list_elem_of_fmap_2.
Qed.

(** X4: on a disk that takes every write, a run whose finalized
    specifications bear pairwise different names leaves as many files in the
    directory si-specs as there are finalized specifications, each
    specification in the file of its name; no write error is printed and the
    summary counts them all. *)
Theorem every_spec_gets_its_file (w : World) (specs : list PkgSpec) :
  finalized w = inr specs ->
  NoDup (name <$> specs) ->
  (forall i, i < length specs -> diskAnswer w i = None) ->
  size (directory SI_SPEC_DIR (generateSiSpecs w).2) = length specs
  /\ (forall spec, spec ∈ specs ->
        directory SI_SPEC_DIR (generateSiSpecs w).2 !! specPath (name spec)
        = Some (JSON_stringify spec))
  /\ printedBy generateSiSpecs w
     = buildLog (Object_values (cfDb w))
       ++ [summary (length specs) (length (Object_values (cfDb w)))].
Proof.
  intros Hfin Hnodup Hdisk.
  pose proof (outcomes_all_emitted specs (faults w) Hdisk) as Houts.
  rewrite (directory_after_run w specs Hfin), printedBy_generateSiSpecs, Hfin.
  rewrite Houts. split; [|split].
  - rewrite store_all_size; [by rewrite map_size_empty| done |].
    intros s _. apply lookup_empty.
  - intros spec Hspec. apply list_elem_of_lookup in Hspec as [i Hi].
    rewrite <- (take_drop_middle specs i spec Hi), fmap_app, fmap_cons.
    apply (store_last _ (spec, None)); [done|].
    intros o' Ho' _ Heq. simpl in Heq.
    apply list_elem_of_fmap in Ho' as (s' & -> & Hs'). simpl in Heq.
    rewrite <- (take_drop_middle specs i spec Hi), fmap_app, fmap_cons in Hnodup.
    apply NoDup_app in Hnodup as (_ & _ & Hnodup).
    apply NoDup_cons in Hnodup as [Hfresh _]. apply Hfresh.
    rewrite <- Heq. by apply list_elem_of_fmap_2.
  - f_equal.
    assert (Hnone : omap writeFailure ((fun s => (s, @None Exn)) <$> specs)
                    = []).
    { clear. induction specs; simpl; auto. }
    assert (Hall : List.filter emitted ((fun s => (s, @None Exn)) <$> specs)
                   = (fun s => (s, None)) <$> specs).
    { clear. induction specs; simpl; [done|]. by f_equal. }
    by rewrite Hnone, Hall, length_fmap.
Qed.

End RunFacts.

Section ScenarioFacts.
Import Scenario.

Lemma reconciler_exception_leaves_the_files_witness :
  (generateSiSpecs run3).1 = inl "IdentityConflict"
  /\ files (generateSiSpecs run3).2 = files run3
  /\ faults (generateSiSpecs run3).2 = faults run3
  /\ List.filter isWrite (eventsOf generateSiSpecs run3) = []
  /\ (forall dir, EmptiesDirectory dir ∈ eventsOf generateSiSpecs run3 -> False)
  /\ printedBy generateSiSpecs run3 = buildLog (Object_values (cfDb run3)).
Proof.
  apply (reconciler_exception_leaves_the_files run3 "IdentityConflict").
  vm_compute. reflexivity.
Defined.

Lemma every_spec_gets_its_file_witness :
  size (directory SI_SPEC_DIR (generateSiSpecs run4).2) = length (finalOf run4)
  /\ (forall spec, spec ∈ finalOf run4 ->
        directory SI_SPEC_DIR (generateSiSpecs run4).2 !! specPath (name spec)
        = Some (JSON_stringify spec))
  /\ printedBy generateSiSpecs run4
     = buildLog (Object_values (cfDb run4))
       ++ [summary (length (finalOf run4))
                   (length (Object_values (cfDb run4)))].
Proof.
  apply (every_spec_gets_its_file run4 (finalOf run4)).
  - vm_compute. reflexivity.
  - apply (bool_decide_unpack _). vm_compute. exact I.
  - intros i _. reflexivity.
Defined.

End ScenarioFacts.

(** ** JavaScript objects and the lodash functions *)

Section JsObjects.
Context {V : Type}.
Implicit Types (o : JsObject.t V) (k : string) (v : V).

Lemma get_cons o k k' v :
  JsObject.get ((k', v) :: o) k
  = if bool_decide (k' = k) then Some v else JsObject.get o k.
Proof. unfold JsObject.get. simpl. by destruct (bool_decide (k' = k)). Qed.

Lemma get_None o k : k ∉ o.*1 -> JsObject.get o k = None.
Proof.
  induction o as [|[k' v] o IH]; intros Hk; [done|].
  rewrite get_cons. rewrite fmap_cons in Hk.
  apply not_elem_of_cons in Hk as [Hne Hk]. simpl in Hne.
  rewrite bool_decide_false by done. by apply IH.
Qed.

Lemma get_replace_ne o k v k' :
  k <> k' -> JsObject.get (JsObject.replace k v o) k' = JsObject.get o k'.
Proof.
  intros Hne. unfold JsObject.replace.
  induction o as [|[k0 v0] o IH]; [done|].
  rewrite fmap_cons. simpl. destruct (decide (k0 = k)) as [->|Hne0].
  - rewrite bool_decide_true by done. rewrite !get_cons.
    by rewrite bool_decide_false.
  - rewrite bool_decide_false by done. rewrite !get_cons. by rewrite IH.
Qed.

Lemma get_replace_eq o k v :
  k ∈ o.*1 -> JsObject.get (JsObject.replace k v o) k = Some v.
Proof.
  unfold JsObject.replace. induction o as [|[k0 v0] o IH]; intros Hk.
  - by apply elem_of_nil in Hk.
  - rewrite fmap_cons. simpl. destruct (decide (k0 = k)) as [->|Hne0].
    + rewrite bool_decide_true by done. rewrite get_cons.
      by rewrite bool_decide_true.
    + rewrite bool_decide_false by done. rewrite get_cons.
      rewrite bool_decide_false by done. apply IH.
      rewrite fmap_cons in Hk. apply elem_of_cons in Hk as [Hk|Hk]; [|done].
      simpl in Hk. congruence.
Qed.

Lemma get_replace o k v k' :
  k ∈ o.*1 ->
  JsObject.get (JsObject.replace k v o) k'
  = if decide (k = k') then Some v else JsObject.get o k'.
Proof.
  intros Hk. destruct (decide (k = k')) as [<-|Hne].
  - by apply get_replace_eq.
  - by apply get_replace_ne.
Qed.

Lemma keys_replace o k v : (JsObject.replace k v o).*1 = o.*1.
Proof.
  unfold JsObject.replace. rewrite <- list_fmap_compose.
  apply list_fmap_ext. intros i [k0 v0] _. simpl.
  destruct (decide (k0 = k)) as [->|Hne].
  - by rewrite bool_decide_true.
  - by rewrite bool_decide_false.
Qed.

Lemma get_insertIndex n o k v k' :
  k ∉ o.*1 ->
  JsObject.get (JsObject.insertIndex n k v o) k'
  = if decide (k = k') then Some v else JsObject.get o k'.
Proof.
  induction o as [|[k0 v0] o IH]; intros Hk; simpl.
  - rewrite get_cons. destruct (decide (k = k')) as [->|Hne].
    + by rewrite bool_decide_true.
    + by rewrite bool_decide_false.
  - rewrite fmap_cons in Hk. apply not_elem_of_cons in Hk as [Hne0 Hk].
    simpl in Hne0.
    assert (Hfront : JsObject.get ((k, v) :: (k0, v0) :: o) k'
                     = if decide (k = k') then Some v
                       else JsObject.get ((k0, v0) :: o) k').
    { rewrite get_cons. destruct (decide (k = k')) as [->|Hne].
      - by rewrite bool_decide_true.
      - by rewrite bool_decide_false. }
    destruct (JsObject.arrayIndex k0) as [m|]; [|exact Hfront].
    destruct (n <? m)%N; [exact Hfront|].
    rewrite !get_cons, IH by done.
    destruct (decide (k = k')) as [->|Hne]; [|done].
    by rewrite bool_decide_false.
Qed.

Lemma keys_insertIndex n o k v :
  (JsObject.insertIndex n k v o).*1 ≡ₚ k :: o.*1.
Proof.
  induction o as [|[k0 v0] o IH]; simpl; [done|].
  destruct (JsObject.arrayIndex k0) as [m|]; [|done].
  destruct (n <? m)%N; [done|].
  rewrite !fmap_cons, IH. simpl. apply Permutation_swap.
Qed.

Lemma get_append o k v k' :
  k ∉ o.*1 ->
  JsObject.get (o ++ [(k, v)]) k'
  = if decide (k = k') then Some v else JsObject.get o k'.
Proof.
  induction o as [|[k0 v0] o IH]; intros Hk.
  - simpl. rewrite get_cons. destruct (decide (k = k')) as [->|Hne].
    + by rewrite bool_decide_true.
    + by rewrite bool_decide_false.
  - rewrite fmap_cons in Hk. apply not_elem_of_cons in Hk as [Hne0 Hk].
    simpl in Hne0. rewrite <- app_comm_cons, !get_cons, IH by done.
    destruct (decide (k = k')) as [->|Hne]; [|done].
    by rewrite bool_decide_false.
Qed.

(** Reading after an assignment. *)
Lemma get_set o k v k' :
  JsObject.get (JsObject.set k v o) k'
  = if decide (k = k') then Some v else JsObject.get o k'.
Proof.
  unfold JsObject.set, JsObject.has.
  destruct (decide (k ∈ o.*1)) as [Hin|Hout].
  - rewrite bool_decide_true by done. by apply get_replace.
  - rewrite bool_decide_false by done.
    destruct (JsObject.arrayIndex k); [by apply get_insertIndex|].
    by apply get_append.
Qed.

Lemma keys_set o k v :
  (JsObject.set k v o).*1 ≡ₚ if decide (k ∈ o.*1) then o.*1 else k :: o.*1.
Proof.
  unfold JsObject.set, JsObject.has.
  destruct (decide (k ∈ o.*1)) as [Hin|Hout].
  - rewrite bool_decide_true by done. by rewrite keys_replace.
  - rewrite bool_decide_false by done.
    destruct (JsObject.arrayIndex k); [apply keys_insertIndex|].
    rewrite fmap_app. simpl. by rewrite Permutation_app_comm.
Qed.

Lemma keys_set_NoDup o k v : NoDup o.*1 -> NoDup (JsObject.set k v o).*1.
Proof.
  intros Hnodup. rewrite keys_set. destruct (decide (k ∈ o.*1)); [done|].
  by apply NoDup_cons.
Qed.

Lemma elem_of_set o k v (p : string * V) :
  p ∈ JsObject.set k v o -> p = (k, v) \/ (p ∈ o /\ p.1 <> k).
Proof.
  unfold JsObject.set, JsObject.has.
  destruct (decide (k ∈ o.*1)) as [Hin|Hout].
  - rewrite bool_decide_true by done. unfold JsObject.replace.
    intros Hp. apply list_elem_of_fmap in Hp as ([k0 v0] & -> & Hp0). simpl.
    destruct (decide (k0 = k)) as [->|Hne].
    + rewrite bool_decide_true by done. by left.
    + rewrite bool_decide_false by done. by right.
  - rewrite bool_decide_false by done. intros Hp.
    assert (Hcases : p = (k, v) \/ p ∈ o).
    { destruct (JsObject.arrayIndex k) as [n|].
      - clear Hout. induction o as [|[k0 v0] o IH]; simpl in Hp.
        + apply list_elem_of_singleton in Hp. by left.
        + destruct (JsObject.arrayIndex k0) as [m|].
          * destruct (n <? m)%N.
            -- apply elem_of_cons in Hp as [?|?]; [by left|by right].
            -- apply elem_of_cons in Hp as [->|Hp];
                 [right; apply list_elem_of_here|].
               destruct (IH Hp) as [?|?]; [by left|].
               right. by apply list_elem_of_further.
          * apply elem_of_cons in Hp as [?|?]; [by left|by right].
      - apply elem_of_app in Hp as [?|Hp]; [by right|].
        apply list_elem_of_singleton in Hp. by left. }
    destruct Hcases as [?|Hp0]; [by left|]. right. split; [done|].
    intros Heq. apply Hout. rewrite <- Heq. by apply list_elem_of_fmap_2.
Qed.

Lemma length_set o k v : length (JsObject.set k v o) <= S (length o).
Proof.
  rewrite <- (length_fmap fst (JsObject.set k v o)), keys_set.
  destruct (decide (k ∈ o.*1)); simpl; rewrite length_fmap; lia.
Qed.

Lemma get_elem_of o k v :
  NoDup o.*1 -> JsObject.get o k = Some v <-> (k, v) ∈ o.
Proof.
  induction o as [|[k0 v0] o IH]; intros Hnodup.
  - split; [done|]. intros Hin. by apply elem_of_nil in Hin.
  - rewrite fmap_cons in Hnodup. apply NoDup_cons in Hnodup as [Hk0 Hnodup].
    simpl in Hk0. rewrite get_cons, elem_of_cons.
    destruct (decide (k0 = k)) as [->|Hne].
    + rewrite bool_decide_true by done. split.
      * intros [= ->]. by left.
      * intros [[= ->]|Hin]; [done|]. exfalso. apply Hk0.
        by apply (list_elem_of_fmap_2 fst) in Hin.
    + rewrite bool_decide_false by done. rewrite IH by done. split.
      * by right.
      * intros [[= ? ?]|Hin]; [congruence|done].
Qed.

Section KeyBy.
Variable iteratee : V -> string.

Lemma keyBy_snoc (l : list V) (x : V) :
  Lodash.keyBy (l ++ [x]) iteratee
  = JsObject.set (iteratee x) x (Lodash.keyBy l iteratee).
Proof. unfold Lodash.keyBy. by rewrite foldl_app. Qed.

Lemma keyBy_NoDup (l : list V) : NoDup (Lodash.keyBy l iteratee).*1.
Proof.
  induction l as [|x l IH] using rev_ind; [constructor|].
  rewrite keyBy_snoc. by apply keys_set_NoDup.
Qed.

Lemma keyBy_keyed (l : list V) (p : string * V) :
  p ∈ Lodash.keyBy l iteratee -> p.1 = iteratee p.2 /\ p.2 ∈ l.
Proof.
  induction l as [|x l IH] using rev_ind; intros Hp.
  - by apply elem_of_nil in Hp.
  - rewrite keyBy_snoc in Hp. apply elem_of_set in Hp as [->|[Hp _]].
    + split; [done|]. apply elem_of_app. right. apply list_elem_of_here.
    + destruct (IH Hp). split; [done|]. apply elem_of_app. by left.
Qed.

Lemma keyBy_get (l : list V) (k : string) :
  JsObject.get (Lodash.keyBy l iteratee) k
  = last (List.filter (fun x => bool_decide (iteratee x = k)) l).
Proof.
  induction l as [|x l IH] using rev_ind; [done|].
  rewrite keyBy_snoc, get_set, List.filter_app. simpl.
  destruct (decide (iteratee x = k)) as [Hk|Hk].
  - rewrite bool_decide_true by done. by rewrite last_snoc.
  - rewrite bool_decide_false by done. by rewrite app_nil_r.
Qed.

Lemma keyBy_length (l : list V) :
  length (Lodash.keyBy l iteratee) <= length l.
Proof.
  induction l as [|x l IH] using rev_ind; [done|].
  rewrite keyBy_snoc, length_app. simpl.
  pose proof (length_set (Lodash.keyBy l iteratee) (iteratee x) x). lia.
Qed.

Lemma keyBy_values_keys (l : list V) :
  iteratee <$> Lodash.values (Lodash.keyBy l iteratee)
  = (Lodash.keyBy l iteratee).*1.
Proof.
  unfold Lodash.values. rewrite <- list_fmap_compose.
  apply list_fmap_ext. intros i p Hp. simpl.
  apply list_elem_of_lookup_2, keyBy_keyed in Hp as [Hp _]. by rewrite Hp.
Qed.

Lemma keyBy_values (l : list V) (x : V) :
  x ∈ Lodash.values (Lodash.keyBy l iteratee) <->
  last (List.filter (fun y => bool_decide (iteratee y = iteratee x)) l)
  = Some x.
Proof.
  rewrite <- keyBy_get, (get_elem_of _ _ _ (keyBy_NoDup l)).
  unfold Lodash.values. rewrite list_elem_of_fmap. split.
  - intros ([k y] & -> & Hp). simpl.
    pose proof (keyBy_keyed _ _ Hp) as [Hk _]. simpl in Hk. by rewrite <- Hk.
  - intros Hp. by exists (iteratee x, x).
Qed.

End KeyBy.
End JsObjects.

(** ** Sorting by a string criterion *)

Lemma string_compare_trans (a : string) : forall b c,
  String.compare a b <> Gt -> String.compare b c <> Gt ->
  String.compare a c <> Gt.
Proof.
  induction a as [|x a IH]; intros [|y b] [|z c]; simpl; try done.
  destruct (Ascii.compare x y) eqn:Exy; [| |done];
    destruct (Ascii.compare y z) eqn:Eyz; try done.
  - apply Ascii.compare_eq_iff in Exy as ->. rewrite Eyz. apply IH.
  - apply Ascii.compare_eq_iff in Exy as ->. by rewrite Eyz.
  - apply Ascii.compare_eq_iff in Eyz as <-. by rewrite Exy.
  - intros. unfold Ascii.compare in *.
    rewrite N.compare_lt_iff in Exy, Eyz.
    assert (Hxz : (Ascii.N_of_ascii x < Ascii.N_of_ascii z)%N) by lia.
    apply N.compare_lt_iff in Hxz. by rewrite Hxz.
Qed.

Lemma leb_trans (a b c : string) :
  String.leb a b = true -> String.leb b c = true -> String.leb a c = true.
Proof.
  unfold String.leb. intros Hab Hbc.
  pose proof (string_compare_trans a b c) as Htrans.
  destruct (String.compare a b); destruct (String.compare b c);
    destruct (String.compare a c); try done; exfalso; by apply Htrans.
Qed.

Lemma leb_refl (a : string) : String.leb a a = true.
Proof. by destruct (String.leb_total a a). Qed.

Section SortBy.
Context {V : Type} (iteratee : V -> string).

Lemma elem_of_insertBy (x y : V) (sorted : list V) :
  y ∈ Lodash.insertBy iteratee x sorted <-> y = x \/ y ∈ sorted.
Proof.
  induction sorted as [|z sorted IH]; simpl.
  - rewrite list_elem_of_singleton, elem_of_nil. tauto.
  - destruct (String.leb (iteratee x) (iteratee z)).
    + by rewrite elem_of_cons.
    + rewrite !elem_of_cons, IH. tauto.
Qed.

Lemma elem_of_sortBy (y : V) (l : list V) :
  y ∈ Lodash.sortBy l iteratee <-> y ∈ l.
Proof.
  unfold Lodash.sortBy. induction l as [|x l IH]; simpl; [done|].
  by rewrite elem_of_insertBy, IH, elem_of_cons.
Qed.

(** The first element of a sorted collection is a least one. *)
Lemma head_sortBy (l : list V) (h : V) :
  head (Lodash.sortBy l iteratee) = Some h ->
  h ∈ l /\ forall y, y ∈ l -> String.leb (iteratee h) (iteratee y) = true.
Proof.
  intros Hhead. split.
  { apply elem_of_sortBy. by apply head_Some_elem_of. }
  intros y Hy. apply elem_of_sortBy in Hy. revert h Hhead y Hy.
  unfold Lodash.sortBy. induction l as [|x l IH]; simpl; [done|].
  intros h Hhead y Hy. apply elem_of_insertBy in Hy.
  destruct (foldr (Lodash.insertBy iteratee) [] l) as [|z sorted] eqn:Hsorted.
  - simpl in *. injection Hhead as <-.
    destruct Hy as [->|Hy]; [apply leb_refl|by apply elem_of_nil in Hy].
  - simpl in Hhead.
    destruct (String.leb (iteratee x) (iteratee z)) eqn:Hxz; simpl in Hhead;
      injection Hhead as <-.
    + destruct Hy as [->|Hy]; [apply leb_refl|].
      apply (leb_trans _ (iteratee z)); [done|]. by apply IH.
    + destruct Hy as [->|Hy]; [|by apply IH].
      destruct (String.leb_total (iteratee x) (iteratee z)); congruence.
Qed.

Lemma head_sortBy_None (l : list V) :
  head (Lodash.sortBy l iteratee) = None <-> l = [].
Proof.
  split; [|by intros ->]. destruct l as [|x l]; [done|]. intros Hnone.
  assert (Hx : x ∈ Lodash.sortBy (x :: l) iteratee)
    by (apply elem_of_sortBy, list_elem_of_here).
  destruct (Lodash.sortBy (x :: l) iteratee); [by apply elem_of_nil in Hx|done].
Qed.

End SortBy.

(** ** The workspaces store *)

Section WorkspacesStore.
Import Store.

Lemma head_filter_Some {A : Type} (P : A -> bool) (l : list A) (x : A) :
  head (List.filter P l) = Some x -> x ∈ l /\ P x = true.
Proof.
  intros Hhead. apply head_Some_elem_of, list_elem_of_In, filter_In in Hhead.
  destruct Hhead. split; [by apply list_elem_of_In|done].
Qed.

Lemma head_filter_None {A : Type} (P : A -> bool) (l : list A) :
  head (List.filter P l) = None <-> forall x, x ∈ l -> P x = false.
Proof.
  induction l as [|y l IH]; simpl.
  - split; [|done]. intros _ x Hx. by apply elem_of_nil in Hx.
  - destruct (P y) eqn:Hy; simpl.
    + split; [done|]. intros Hall.
      specialize (Hall y (list_elem_of_here _ _)). congruence.
    + rewrite IH. split.
      * intros Hall x Hx. apply elem_of_cons in Hx as [->|Hx]; auto.
      * intros Hall x Hx. apply Hall. by apply list_elem_of_further.
Qed.

(** X6: when [LOAD_WORKSPACES] succeeds, the store answers a lookup by id
    with the last workspace of the response that bears the id, and with
    nothing when the response has none; what the store held before plays no
    part, and the members are kept. *)
Theorem loaded_workspaces_by_id (response : list Workspace) (this : State)
    (k : WorkspaceId) :
  JsObject.get (workspacesById (LOAD_WORKSPACES_onSuccess response this)) k
  = last (List.filter (fun w => bool_decide (id w = k)) response)
  /\ selectedWorkspaceMembersById (LOAD_WORKSPACES_onSuccess response this)
     = selectedWorkspaceMembersById this.
Proof. split; [apply keyBy_get|done]. Qed.

(** X7: after [LOAD_WORKSPACES] the getter [workspaces] lists no id twice; a
    workspace is listed exactly when it is the last of the response with its
    id; and the list is no longer than the response. *)
Theorem loaded_workspaces_are_unique (response : list Workspace)
    (this : State) :
  let loaded := workspaces (LOAD_WORKSPACES_onSuccess response this) in
  NoDup (id <$> loaded)
  /\ (forall w, w ∈ loaded <->
        last (List.filter (fun w' => bool_decide (id w' = id w)) response)
        = Some w)
  /\ length loaded <= length response.
Proof.
  unfold workspaces, LOAD_WORKSPACES_onSuccess. simpl. split; [|split].
  - rewrite keyBy_values_keys. apply keyBy_NoDup.
  - intros w. apply keyBy_values.
  - unfold Lodash.values. rewrite length_fmap. apply keyBy_length.
Qed.

(** X8: the workspace [defaultWorkspace] returns is in the store and was
    created by the logged-in user; it is flagged default, or else the user
    has no workspace flagged default in the store and it is a production
    workspace of the user created no later than any other. *)
Theorem defaultWorkspace_is_the_users (user : option UserId) (state : State)
    (w : Workspace) :
  defaultWorkspace user state = Some w ->
  w ∈ workspaces state
  /\ user = Some (creatorUserId w)
  /\ (isDefault w = true
      \/ (instanceEnvType w = SI
          /\ (forall w', w' ∈ workspaces state ->
                creatorUserId w' = creatorUserId w -> isDefault w' = false)
          /\ (forall w', w' ∈ workspaces state ->
                creatorUserId w' = creatorUserId w ->
                instanceEnvType w' = SI ->
                String.leb (createdAt w) (createdAt w') = true))).
Proof.
  unfold defaultWorkspace, workspaces.
  destruct (head (List.filter (fun w => isDefault w && createdBy user w) _))
    as [d|] eqn:Hdefault.
  - intros [= ->]. apply head_filter_Some in Hdefault as [Hin Hflags].
    apply andb_true_iff in Hflags as [Hflag Huser].
    apply bool_decide_eq_true in Huser. split; [done|]. split; [done|].
    by left.
  - destruct (head (Lodash.sortBy _ createdAt)) as [p|] eqn:Hfirst; [|done].
    intros [= ->]. apply head_sortBy in Hfirst as [Hin Hleast].
    apply list_elem_of_In, filter_In in Hin as [Hin Hflags].
    apply list_elem_of_In in Hin.
    apply andb_true_iff in Hflags as [Huser Hprod].
    apply bool_decide_eq_true in Huser. split; [done|]. split; [done|].
    right. split; [|split].
    + unfold isProduction in Hprod. by destruct (instanceEnvType w).
    + intros w' Hw' Hsame.
      pose proof (proj1 (head_filter_None _ _) Hdefault w' Hw') as Hnot.
      apply andb_false_iff in Hnot as [Hnot|Hnot]; [done|].
      apply bool_decide_eq_false in Hnot. congruence.
    + intros w' Hw' Hsame Hsi. apply Hleast.
      apply list_elem_of_In, filter_In. split; [by apply list_elem_of_In|].
      apply andb_true_iff. split.
      * apply bool_decide_eq_true. congruence.
      * unfold isProduction. by rewrite Hsi.
Qed.

(** X9: [defaultWorkspace] returns null exactly when no workspace of the
    store created by the logged-in user is flagged default or is a production
    workspace; with nobody logged in it returns null whatever the store
    holds. *)
Theorem defaultWorkspace_null (user : option UserId) (state : State) :
  (defaultWorkspace user state = None <->
   forall w, w ∈ workspaces state -> createdBy user w = true ->
             isDefault w = false /\ isProduction w = false)
  /\ defaultWorkspace None state = None.
Proof.
  assert (Hiff : forall u,
            defaultWorkspace u state = None <->
            forall w, w ∈ workspaces state -> createdBy u w = true ->
                      isDefault w = false /\ isProduction w = false).
  { intros u. unfold defaultWorkspace, workspaces. split.
    - destruct (head (List.filter (fun w => isDefault w && createdBy u w) _))
        as [d|] eqn:Hdefault; [done|].
      destruct (head (Lodash.sortBy _ createdAt)) as [p|] eqn:Hfirst; [done|].
      intros _ w Hw Huser.
      pose proof (proj1 (head_filter_None _ _) Hdefault w Hw) as Hnot.
      cbv beta in Hnot. rewrite Huser, andb_true_r in Hnot. split; [done|].
      apply head_sortBy_None in Hfirst.
      destruct (isProduction w) eqn:Hprod; [|done].
      assert (Hin : w ∈ List.filter
                          (fun w => createdBy u w && isProduction w)
                          (Lodash.values (workspacesById state))).
      { apply list_elem_of_In, filter_In. split; [by apply list_elem_of_In|].
        by rewrite Huser, Hprod. }
      rewrite Hfirst in Hin. by apply elem_of_nil in Hin.
    - intros Hnone.
      assert (Hdefault : head (List.filter
                                 (fun w => isDefault w && createdBy u w)
                                 (Lodash.values (workspacesById state)))
                         = None).
      { apply head_filter_None. intros w Hw.
        destruct (createdBy u w) eqn:Huser; [|apply andb_false_r].
        destruct (Hnone w Hw Huser) as [-> _]. done. }
      rewrite Hdefault.
      assert (Hhead : head (List.filter
                              (fun w => createdBy u w && isProduction w)
                              (Lodash.values (workspacesById state)))
                      = None).
      { apply head_filter_None. intros w Hw.
        destruct (createdBy u w) eqn:Huser; [|done].
        destruct (Hnone w Hw Huser) as [_ ->]. done. }
      assert (Hprod : List.filter (fun w => createdBy u w && isProduction w)
                        (Lodash.values (workspacesById state)) = []).
      { remember (List.filter (fun w => createdBy u w && isProduction w)
                    (Lodash.values (workspacesById state))) as production.
        by destruct production. }
      by rewrite Hprod. }
  split; [apply Hiff|]. apply Hiff. intros w _ Huser.
  unfold createdBy in Huser. by apply bool_decide_eq_true in Huser.
Qed.

End WorkspacesStore.

Section WorkspacesLoaded.
Import Store.

Lemma keyBy_fresh_keys {V : Type} (iteratee : V -> string) (l : list V) :
  NoDup (iteratee <$> l) ->
  (forall x, x ∈ l -> JsObject.arrayIndex (iteratee x) = None) ->
  Lodash.keyBy l iteratee = (fun x => (iteratee x, x)) <$> l.
Proof.
  induction l as [|x l IH] using rev_ind; intros Hnodup Hkeys; [done|].
  rewrite fmap_app in Hnodup. apply NoDup_app in Hnodup as (Hl & Hx & _).
  rewrite keyBy_snoc, IH, fmap_app; [|done|].
  - unfold JsObject.set, JsObject.has.
    rewrite <- list_fmap_compose. rewrite bool_decide_false.
    + rewrite (Hkeys x); [done|]. apply elem_of_app. right.
      apply list_elem_of_here.
    + intros Hin. apply (Hx _ Hin). apply list_elem_of_here.
  - intros y Hy. apply Hkeys. apply elem_of_app. by left.
Qed.

(** X10: when the ids of the response of [LOAD_WORKSPACES] are pairwise
    different and none is the decimal numeral of an array index, the getter
    [workspaces] lists the response as it came, in its order. *)
Theorem loaded_workspaces_keep_their_order (response : list Workspace)
    (this : State) :
  NoDup (id <$> response) ->
  (forall w, w ∈ response -> JsObject.arrayIndex (id w) = None) ->
  workspaces (LOAD_WORKSPACES_onSuccess response this) = response.
Proof.
  intros Hnodup Hkeys. unfold workspaces, LOAD_WORKSPACES_onSuccess. simpl.
  rewrite keyBy_fresh_keys by done. unfold Lodash.values.
  rewrite <- list_fmap_compose. apply list_fmap_id.
Qed.

Lemma loaded_workspaces_keep_their_order_witness :
  workspaces (LOAD_WORKSPACES_onSuccess Portal.response state)
  = Portal.response.
Proof.
  apply (loaded_workspaces_keep_their_order Portal.response state).
  - apply (bool_decide_unpack _). vm_compute. exact I.
  - intros w Hw. unfold Portal.response in Hw.
    repeat (apply elem_of_cons in Hw as [->|Hw]; [vm_compute; reflexivity|]).
    by apply elem_of_nil in Hw.
Defined.

Lemma defaultWorkspace_is_the_users_witness :
  let w := Portal.workspace "01HWSEARLY" SI Portal.ada "2023-11-20T08:30:00Z"
             false in
  w ∈ workspaces Portal.loaded
  /\ Some Portal.ada = Some (creatorUserId w)
  /\ (isDefault w = true
      \/ (instanceEnvType w = SI
          /\ (forall w', w' ∈ workspaces Portal.loaded ->
                creatorUserId w' = creatorUserId w -> isDefault w' = false)
          /\ (forall w', w' ∈ workspaces Portal.loaded ->
                creatorUserId w' = creatorUserId w ->
                instanceEnvType w' = SI ->
                String.leb (createdAt w) (createdAt w') = true))).
Proof.
  apply (defaultWorkspace_is_the_users (Some Portal.ada) Portal.loaded).
  vm_compute. reflexivity.
Defined.

(** Ids that are numerals come first, in ascending order. *)
Example numbered_workspaces_come_first :
  id <$> workspaces (LOAD_WORKSPACES_onSuccess Portal.numbered state)
  = ["7"; "12"; "01HWSLATE"].
Proof. vm_compute. reflexivity. Qed.

End WorkspacesLoaded.

(** ** Removing from an edit field *)

Section EditFieldRequests.
Import EditField.
Context `{Api}.
Variable sdf_post : string -> RemoveFromEditFieldRequest -> list ApiResponse.
Variable args : RemoveFromEditFieldArgs.

Lemma firstCombined_waits (emissions : list Emission) : forall visibility workspace,
  (visibility = None /\ forall v, FromVisibility v ∉ emissions)
  \/ (workspace = None /\ forall w, FromWorkspace w ∉ emissions) ->
  firstCombined visibility workspace emissions = None.
Proof.
  induction emissions as [|[v|w] rest IH]; intros visibility workspace Hnever;
    [done| |]; simpl.
  - destruct Hnever as [[_ Hnever]|[-> Hnever]].
    + exfalso. apply (Hnever v). apply list_elem_of_here.
    + apply IH. right. split; [done|]. intros w Hw. apply (Hnever w).
      by apply list_elem_of_further.
  - destruct Hnever as [[-> Hnever]|[_ Hnever]].
    + apply IH. left. split; [done|]. intros v Hv. apply (Hnever v).
      by apply list_elem_of_further.
    + exfalso. apply (Hnever w). apply list_elem_of_here.
Qed.

Lemma firstCombined_app (emissions later : list Emission) :
  forall visibility workspace latest,
    firstCombined visibility workspace emissions = Some latest ->
    firstCombined visibility workspace (emissions ++ later) = Some latest.
Proof.
  induction emissions as [|[v|w] rest IH]; intros visibility workspace latest;
    [done| |]; simpl.
  - destruct workspace; [done|]. apply IH.
  - destruct visibility; [done|]. apply IH.
Qed.

Lemma firstCombined_both (emissions : list Emission) :
  forall visibility workspace,
    visibility = None \/ workspace = None ->
    (is_Some visibility \/ exists v, FromVisibility v ∈ emissions) ->
    (is_Some workspace \/ exists w, FromWorkspace w ∈ emissions) ->
    is_Some (firstCombined visibility workspace emissions).
Proof.
  induction emissions as [|[v|w] rest IH];
    intros visibility workspace Hnone Hv Hw.
  - exfalso. destruct Hnone as [-> | ->].
    + destruct Hv as [[? [=]]|[v Hv]]. by apply elem_of_nil in Hv.
    + destruct Hw as [[? [=]]|[w Hw]]. by apply elem_of_nil in Hw.
  - simpl. destruct workspace as [w0|]; [by eexists|].
    apply IH; [by right|left; by eexists|].
    destruct Hw as [[? [=]]|[w Hw]]. right. exists w.
    apply elem_of_cons in Hw as [[=]|Hw]. done.
  - simpl. destruct visibility as [v0|]; [by eexists|].
    apply IH; [by left| |left; by eexists].
    destruct Hv as [[? [=]]|[v Hv]]. right. exists v.
    apply elem_of_cons in Hv as [[=]|Hv]. done.
Qed.

Lemma firstCombined_latest (earlier later : list Emission) v w :
  forall visibility workspace,
    ((forall w', FromWorkspace w' ∉ earlier) ->
     firstCombined visibility None
       (earlier ++ FromVisibility v :: FromWorkspace w :: later)
     = Some (v, w))
    /\ ((forall v', FromVisibility v' ∉ earlier) ->
        firstCombined None workspace
          (earlier ++ FromWorkspace w :: FromVisibility v :: later)
        = Some (v, w)).
Proof.
  induction earlier as [|[v0|w0] rest IH]; intros visibility workspace.
  - done.
  - split; intros Hnone.
    + simpl. apply (IH (Some v0) workspace). intros w' Hin. apply (Hnone w').
      by apply list_elem_of_further.
    + exfalso. apply (Hnone v0). apply list_elem_of_here.
  - split; intros Hnone.
    + exfalso. apply (Hnone w0). apply list_elem_of_here.
    + simpl. apply (IH visibility (Some w0)). intros v' Hin. apply (Hnone v').
      by apply list_elem_of_further.
Qed.

(** X11: nothing happens before both streams have emitted: when [visibility$]
    or [workspace$] emits nothing, a subscription posts no request, pushes
    nothing to [editSessionWritten$] and is handed no response. *)
Theorem removeFromEditField_waits_for_both (emissions : list Emission) :
  (forall v, FromVisibility v ∉ emissions)
  \/ (forall w, FromWorkspace w ∉ emissions) ->
  removeFromEditField sdf_post args emissions = nothing.
Proof.
  intros Hnever. unfold removeFromEditField.
  rewrite firstCombined_waits; [done|]. destruct Hnever; [left|right]; done.
Qed.

(** X12: only the first pair counts: once both streams have emitted, what
    they emit later changes nothing of what the subscription does. *)
Theorem removeFromEditField_takes_the_first_pair
    (emissions later : list Emission) :
  (exists v, FromVisibility v ∈ emissions) ->
  (exists w, FromWorkspace w ∈ emissions) ->
  removeFromEditField sdf_post args (emissions ++ later)
  = removeFromEditField sdf_post args emissions.
Proof.
  intros Hv Hw. unfold removeFromEditField.
  destruct (firstCombined_both emissions None None) as [latest Hlatest];
    [by left|by right|by right|].
  by rewrite (firstCombined_app _ later _ _ _ Hlatest), Hlatest.
Qed.

(** X13: a subscription posts at most one request, and only to
    [edit_field/remove_from_edit_field]; the request carries the arguments as
    they were given, and a workspace id exactly when the object is a component
    or a component prop; [editSessionWritten$] gets one [true] for each
    response to the request; and when something is handed over without a
    request having been posted, it is the error with code 10, for a component
    or component prop whose workspace was null. *)
Theorem removeFromEditField_requests (emissions : list Emission) :
  let effects := removeFromEditField sdf_post args emissions in
  let componentKind := objectKind args = Component
                       \/ objectKind args = ComponentProp in
  length (posted effects) <= 1
  /\ (forall url request, (url, request) ∈ posted effects ->
        url = "edit_field/remove_from_edit_field"
        /\ request_args request = args
        /\ (is_Some (workspaceId request) <-> componentKind)
        /\ emitted effects = sdf_post url request
        /\ editSessionWritten effects
           = (fun _ => true) <$> sdf_post url request)
  /\ (posted effects = [] ->
      editSessionWritten effects = []
      /\ (emitted effects = []
          \/ (emitted effects = [Failure noWorkspace] /\ componentKind))).
Proof.
  intros effects componentKind. unfold effects, removeFromEditField.
  destruct (firstCombined None None emissions) as [[visibility workspace]|].
  2:{ simpl. split; [lia|]. split; [|by split; [|left]].
      intros url request Hin. by apply elem_of_nil in Hin. }
  unfold project, componentKind. simpl.
  destruct (decide (objectKind args = Component)) as [Hc|Hc];
    destruct (decide (objectKind args = ComponentProp)) as [Hp|Hp];
    rewrite ?(bool_decide_true _ Hc), ?(bool_decide_false _ Hc),
      ?(bool_decide_true _ Hp), ?(bool_decide_false _ Hp); simpl.
  1-3: destruct workspace as [workspace|]; simpl;
    (split; [lia|]); (split;
      [ intros url request Hin;
        first [ apply list_elem_of_singleton in Hin as [= -> ->]; simpl;
                split; [done|]; split; [done|]; split; [|done];
                split; [intros _; tauto|intros _; by eexists]
              | by apply elem_of_nil in Hin ]
      | intros Hposted; first [ discriminate | split; [done|]; right; tauto ] ]).
  split; [lia|]. split.
  - intros url request Hin.
    apply list_elem_of_singleton in Hin as [= -> ->]. simpl.
    split; [done|]. split; [done|]. split; [|done]. split.
    + intros [? [=]].
    + tauto.
  - discriminate.
Qed.

(** X14: the subscription acts on the values that are the latest when the
    second stream first emits: what the first stream emitted before its last
    value plays no part, and neither does anything emitted afterwards. *)
Theorem removeFromEditField_uses_the_latest (earlier later : list Emission)
    (v : Visibility) (w : option Workspace) :
  ((forall w', FromWorkspace w' ∉ earlier) ->
   removeFromEditField sdf_post args
     (earlier ++ FromVisibility v :: FromWorkspace w :: later)
   = project sdf_post args (v, w))
  /\ ((forall v', FromVisibility v' ∉ earlier) ->
      removeFromEditField sdf_post args
        (earlier ++ FromWorkspace w :: FromVisibility v :: later)
      = project sdf_post args (v, w)).
Proof.
  unfold removeFromEditField.
  destruct (firstCombined_latest earlier later v w None None) as [Hv Hw].
  split; intros Hnone.
  - by rewrite Hv.
  - specialize (Hw Hnone). simpl in Hw. by rewrite Hw.
Qed.

End EditFieldRequests.

Section EditFieldScenario.
Import EditField.

Lemma removeFromEditField_waits_for_both_witness :
  removeFromEditField server removeProp [FromVisibility 3%Z; FromVisibility 4%Z]
  = nothing.
Proof.
  apply (removeFromEditField_waits_for_both server removeProp).
  right. intros w Hin.
  repeat (apply elem_of_cons in Hin as [[=]|Hin]). by apply elem_of_nil in Hin.
Defined.

Lemma removeFromEditField_takes_the_first_pair_witness :
  removeFromEditField server removeProp
    ([FromWorkspace (Some 5%Z); FromVisibility 3%Z]
     ++ [FromWorkspace None; FromVisibility 4%Z])
  = removeFromEditField server removeProp
      [FromWorkspace (Some 5%Z); FromVisibility 3%Z].
Proof.
  apply (removeFromEditField_takes_the_first_pair server removeProp).
  - exists 3%Z. apply list_elem_of_further, list_elem_of_here.
  - exists (Some 5%Z). apply list_elem_of_here.
Defined.

Lemma removeFromEditField_uses_the_latest_witness :
  removeFromEditField server removeProp
    ([FromVisibility 3%Z; FromVisibility 4%Z]
     ++ FromVisibility 6%Z :: FromWorkspace (Some 5%Z) :: [FromVisibility 8%Z])
  = project server removeProp (6%Z, Some 5%Z).
Proof.
  apply (removeFromEditField_uses_the_latest server removeProp).
  intros w Hin.
  repeat (apply elem_of_cons in Hin as [[=]|Hin]). by apply elem_of_nil in Hin.
Defined.

(** A component prop with a workspace is posted with the workspace id; without
    one the error is handed over and nothing is posted; a schema is posted
    without a workspace id whether there is a workspace or not. *)
Example removeProp_in_a_workspace :
  removeFromEditField server removeProp
    [FromVisibility 3%Z; FromWorkspace (Some 5%Z)]
  = mkEffects [Answer (mkResponse true)]
      [("edit_field/remove_from_edit_field", mkRequest removeProp 3%Z (Some 5%Z))]
      [true].
Proof. reflexivity. Qed.

Example removeProp_without_a_workspace :
  removeFromEditField server removeProp [FromVisibility 3%Z; FromWorkspace None]
  = mkEffects [Failure noWorkspace] [] [].
Proof. reflexivity. Qed.

Example removeSchema_without_a_workspace :
  removeFromEditField server removeSchema [FromWorkspace None; FromVisibility 3%Z]
  = mkEffects [Answer (mkResponse true)]
      [("edit_field/remove_from_edit_field", mkRequest removeSchema 3%Z None)]
      [true].
Proof. reflexivity. Qed.

End EditFieldScenario.

(** ** The members of the selected workspace *)

Section WorkspaceMembers.
Import Store.

(** X15: when [REMOVE_USER] succeeds the members of the store are those of
    the response and no others: no user id is listed twice, a member is
    listed exactly when it is the last of the response with its user id, a
    member the response still holds stays whatever e-mail was asked to be
    removed, and one it lacks is gone.  [LOAD_WORKSPACE_MEMBERS] leaves the
    same store; the workspaces and the default workspace are as before. *)
Theorem removed_members_follow_the_response (response : list WorkspaceMember)
    (this : State) (user : option UserId) :
  let removed := REMOVE_USER_onSuccess response this in
  NoDup (userId <$> selectedWorkspaceMembers removed)
  /\ (forall m, m ∈ selectedWorkspaceMembers removed <->
        last (List.filter (fun m' => bool_decide (userId m' = userId m))
                response)
        = Some m)
  /\ (forall m, m ∈ selectedWorkspaceMembers this ->
        userId m ∉ userId <$> response ->
        m ∉ selectedWorkspaceMembers removed)
  /\ LOAD_WORKSPACE_MEMBERS_onSuccess response this = removed
  /\ workspaces removed = workspaces this
  /\ defaultWorkspace user removed = defaultWorkspace user this.
Proof.
  unfold selectedWorkspaceMembers, REMOVE_USER_onSuccess. simpl.
  split; [|split; [|split; [|done]]].
  - rewrite keyBy_values_keys. apply keyBy_NoDup.
  - intros m. apply keyBy_values.
  - intros m _ Hgone Hin. apply keyBy_values in Hin.
    apply last_Some_elem_of, list_elem_of_In, filter_In in Hin as [Hin _].
    apply Hgone. apply list_elem_of_fmap. exists m. split; [done|].
    by apply list_elem_of_In.
Qed.

End WorkspaceMembers.
